(** * TradeSetup: the dual-momentum ETF allocation engine

    A shallow embedding of [etf_dualmomentum.py]: core targets from the bucket
    policy, the single tactical (momentum) overlay, the blended and normalised
    target weights, the rupee trades with their 1000-rupee deadband, and the
    turnover cap that rescales every trade.

    Numbers.  The script computes with Python floats; here every amount and
    weight is an exact rational ([Q]), compared with [==].  The one place
    where the script itself rounds is kept: amounts are written into the
    report as whole-rupee strings ([f"{x:,.0f}"], [round(x, 0)]) and read
    back from those strings, so the report rows hold integers ([Z]).

    Dictionaries.  Python dicts iterate in insertion order and the script
    depends on it (the first of several equal six-month returns wins, the
    report follows the order of [etfs]).  They are association lists with
    the dict's update-in-place-or-append behaviour. *)

From Stdlib Require Import List String Bool ZArith QArith Qround Qabs Lqa Lia.
From Stdlib Require Import Sorted Permutation.
Import ListNotations.
Open Scope Q_scope.

(** ** Python dictionaries as insertion-ordered association lists *)

Module Dict.
Section Ops.
Context {V : Type}.

Definition t := list (string * V).

(** [d.get(k)] *)
Fixpoint get (k : string) (d : t) : option V :=
  match d with
  | [] => None
  | (k', v) :: r => if String.eqb k k' then Some v else get k r
  end.

(** [d[k] = v]: an existing key keeps its position, a new one is appended *)
Fixpoint set (k : string) (v : V) (d : t) : t :=
  match d with
  | [] => [(k, v)]
  | (k', v') :: r =>
      if String.eqb k k' then (k, v) :: r else (k', v') :: set k v r
  end.

Definition keys (d : t) : list string := map fst d.
Definition values (d : t) : list V := map snd d.

(** [d.get(k, dflt)] *)
Definition get_default (k : string) (dflt : V) (d : t) : V :=
  match get k d with Some v => v | None => dflt end.

(** A dict literal is well formed when no key is written twice. *)
Definition wf (d : t) : Prop := NoDup (keys d).
End Ops.
Arguments t : clear implicits.
End Dict.

(** ** Numbers *)

Definition Qgt_bool (x y : Q) : bool := negb (Qle_bool x y).
Definition Qlt_bool (x y : Q) : bool := negb (Qle_bool y x).

(** Python's [sum]: start at 0 and add from the left. *)
Definition pysum (l : list Q) : Q := fold_left Qplus l 0.

(** Rounding to a whole number, ties to the even neighbour: what
    [f"{x:.0f}"] and [round(x, 0)] do. *)
Definition round_half_even (x : Q) : Z :=
  let f := Qfloor x in
  let r := x - inject_Z f in
  if Qlt_bool r (1 # 2) then f
  else if Qgt_bool r (1 # 2) then (f + 1)%Z
  else if Z.even f then f else (f + 1)%Z.

(** ** Data model *)

(** The dict returned by [fetch_etf_metrics]. *)
Record Metrics := {
  price : Q;
  ma200 : Q;
  avg1y : Q;
  r6m : option Q
}.

Inductive Valuation := Overvalued | Undervalued | Fair.

Definition Valuation_eqb (a b : Valuation) : bool :=
  match a, b with
  | Overvalued, Overvalued | Undervalued, Undervalued | Fair, Fair => true
  | _, _ => false
  end.

Definition classify_valuation (latest avg1y : Q) : Valuation :=
  if Qgt_bool latest (avg1y * 1.2) then Overvalued
  else if Qlt_bool latest (avg1y * 0.9) then Undervalued
  else Fair.

(** The user parameters at the top of the script, and the market data the
    run sees.  [fetch] is [fetch_etf_metrics] under the script's
    [try/except]: [None] when the history is empty or the call raises. *)
Record Inputs := {
  etfs : Dict.t string;
  etf_buckets : Dict.t string;
  bucket_targets : Dict.t Q;
  buffett_within_bucket_weights : Dict.t (Dict.t Q);
  current_holdings : Dict.t Q;
  momentum_pct : Q;
  MAX_TURNOVER_PCT : Q;
  fetch : string -> option Metrics
}.

(** The cash-equivalent instrument the script names literally. *)
Definition LIQUIDBEES : string := "LIQUIDBEES"%string.

(** ** fetch_etf_metrics on a price history

    The closing prices that [t.history(period="3y")] returns are taken as a
    list, oldest first, of numbers (no gaps).  A 200-day rolling mean over
    fewer than 200 rows is pandas' NaN: here [None]. *)

(** [s.mean()] *)
Definition mean (l : list Q) : Q :=
  pysum l / inject_Z (Z.of_nat (List.length l)).

(** [s.tail(n)] *)
Definition tail_rows (n : nat) (l : list Q) : list Q :=
  skipn (List.length l - n) l.

(** [s.iloc[-k]], for k from 1 to the number of rows *)
Definition iloc_back (k : nat) (l : list Q) : option Q :=
  nth_error l (List.length l - k).

(** The dict [fetch_etf_metrics] returns, the 200-day average possibly NaN. *)
Record Fetched := {
  fetched_price : Q;
  fetched_ma200 : option Q;
  fetched_avg1y : Q;
  fetched_r6m : option Q
}.

Definition fetch_etf_metrics (closes : list Q) : option Fetched :=
  match iloc_back 1 closes with
  | None => None
  | Some latest =>
      Some {| fetched_price := latest;
              fetched_ma200 :=
                if (200 <=? List.length closes)%nat
                then Some (mean (tail_rows 200 closes)) else None;
              fetched_avg1y := mean (tail_rows 252 closes);
              fetched_r6m :=
                if (130 <=? List.length closes)%nat
                then match iloc_back 126 closes with
                     | Some c => Some ((latest - c) / c * 100)
                     | None => None
                     end
                else None |}
  end.


(** ** Fetch ETF metrics *)

Definition etf_metrics (p : Inputs) : Dict.t (option Metrics) :=
  fold_left (fun d '(name, sym) => Dict.set name (fetch p sym) d) (etfs p) [].

(** ** Portfolio calculations *)

Definition total_value (p : Inputs) : Q :=
  pysum (Dict.values (current_holdings p)).

(** 1) Core targets *)
Definition core_targets (p : Inputs) : Dict.t Q :=
  fold_left
    (fun ct '(bucket, bucket_w) =>
       match Dict.get bucket (buffett_within_bucket_weights p) with
       | None => ct
       | Some within =>
           fold_left (fun ct' '(etf, w) => Dict.set etf (bucket_w * w) ct')
                     within ct
       end)
    (bucket_targets p) [].

(** 2) Tactical / momentum candidates *)

(** One pass of the candidate loop: the entry appended for [name], if any. *)
Definition candidate_of (name : string) (metrics : option Metrics)
  : option (string * Q) :=
  match metrics with
  | None => None
  | Some m =>
      let val := classify_valuation (price m) (avg1y m) in
      let uptrend := Qgt_bool (price m) (ma200 m) in
      if String.eqb name LIQUIDBEES then None
      else
        match r6m m with
        | Some r =>
            if negb (Valuation_eqb val Overvalued) && uptrend && Qgt_bool r 0
            then Some (name, r) else None
        | None => None
        end
  end.

Fixpoint scan_candidates (items : list (string * option Metrics))
  : list (string * Q) :=
  match items with
  | [] => []
  | (name, metrics) :: rest =>
      match candidate_of name metrics with
      | Some c => c :: scan_candidates rest
      | None => scan_candidates rest
      end
  end.

(** [list.sort(key=lambda x: x[1], reverse=True)]: a stable sort, largest key
    first; entries with equal keys keep their order. *)
Fixpoint insert_desc (x : string * Q) (l : list (string * Q))
  : list (string * Q) :=
  match l with
  | [] => [x]
  | y :: r => if Qgt_bool (snd y) (snd x) then y :: insert_desc x r
              else x :: y :: r
  end.

Definition sort_desc (l : list (string * Q)) : list (string * Q) :=
  fold_right insert_desc [] l.

Definition momentum_candidates (p : Inputs) : list (string * Q) :=
  sort_desc (scan_candidates (etf_metrics p)).

Definition zero_allocation (p : Inputs) : Dict.t Q :=
  fold_left (fun d etf => Dict.set etf 0 d) (Dict.keys (etfs p)) [].

Definition tactical_allocation (p : Inputs) : Dict.t Q :=
  match momentum_candidates p with
  | (top, _) :: _ => Dict.set top (momentum_pct p) (zero_allocation p)
  | [] => Dict.set LIQUIDBEES (momentum_pct p) (zero_allocation p)
  end.

(** The instrument the tactical weight is written to: the head of the sorted
    candidates ([top]), or LIQUIDBEES when there is none. *)
Definition tactical_target (p : Inputs) : string :=
  match momentum_candidates p with
  | (top, _) :: _ => top
  | [] => LIQUIDBEES
  end.

(** Momentum eligibility, with the six-month return that qualifies:
    metrics present, not the safe instrument, not overvalued, price above
    the 200-day average, and a return that is present and positive. *)
Definition eligible (p : Inputs) (name : string) (r : Q) : Prop :=
  exists m,
    Dict.get name (etf_metrics p) = Some (Some m)
    /\ name <> LIQUIDBEES
    /\ classify_valuation (price m) (avg1y m) <> Overvalued
    /\ ma200 m < price m
    /\ r6m m = Some r
    /\ 0 < r.

(** 3) Final blended targets *)

(** [val] as the blending loop computes it: [None] without metrics. *)
Definition valuation_of (p : Inputs) (etf : string) : option Valuation :=
  match Dict.get etf (etf_metrics p) with
  | Some (Some m) => Some (classify_valuation (price m) (avg1y m))
  | _ => None
  end.

Definition is_overvalued (v : option Valuation) : bool :=
  match v with Some Overvalued => true | _ => false end.

(** The tactical term of one instrument after the overvaluation override. *)
Definition tactical_term (p : Inputs) (etf : string) : Q :=
  let tactical := Dict.get_default etf 0 (tactical_allocation p) in
  if is_overvalued (valuation_of p etf) then 0 else tactical.

(** [final_targets] as the blending loop leaves it, before normalisation. *)
Definition blended_targets (p : Inputs) : Dict.t Q :=
  fold_left
    (fun ft etf =>
       let core := Dict.get_default etf 0 (core_targets p) in
       Dict.set etf (core + tactical_term p etf) ft)
    (Dict.keys (etfs p)) [].

Definition sum_targets (p : Inputs) : Q :=
  pysum (Dict.values (blended_targets p)).

(** Normalize if >1 *)
Definition final_targets (p : Inputs) : Dict.t Q :=
  if Qgt_bool (sum_targets p) 1
  then map (fun '(k, v) => (k, v / sum_targets p)) (blended_targets p)
  else blended_targets p.

(** 4) Compute rupee targets and actions *)

(** The action label; the amount is the one printed, [round(diff, 0)]. *)
Inductive Action := HOLD | BUY (amount : Z) | SELL (amount : Z).

(** One dict of [output].  ["Current"] and ["Target"] are the whole-rupee
    numbers their strings show ([f"{x:,.0f}"]), which is all that
    [float(o[...].replace(...))] can read back; ["Target %"] is the printed
    percentage in hundredths ([f"{x*100:.2f}%"]). *)
Record Row := {
  ETF : string;
  Bucket : string;
  Valuation_shown : option Valuation;
  Target_pct : Z;
  Current_rs : Z;
  Target_rs : Z;
  Action_shown : Action
}.

Definition deadband : Q := 1000.

(** The deadband rule, shared by steps 4 and 5. *)
Definition classify_action (diff : Q) : Action :=
  if Qlt_bool (Qabs diff) deadband then HOLD
  else if Qgt_bool diff 0 then BUY (round_half_even diff)
  else SELL (round_half_even (- diff)).

(** The trade delta of step 4, before anything is formatted. *)
Definition sized_diff (p : Inputs) (etf : string) (target_pct : Q) : Q :=
  total_value p * target_pct - Dict.get_default etf 0 (current_holdings p).

Definition size_row (p : Inputs) (etf : string) (target_pct : Q) : Row :=
  let target_amt := total_value p * target_pct in
  let current_amt := Dict.get_default etf 0 (current_holdings p) in
  let diff := sized_diff p etf target_pct in
  {| ETF := etf;
     Bucket := Dict.get_default etf "Other"%string (etf_buckets p);
     Valuation_shown := valuation_of p etf;
     Target_pct := round_half_even (target_pct * 100 * 100);
     Current_rs := round_half_even current_amt;
     Target_rs := round_half_even target_amt;
     Action_shown := classify_action diff |}.

Definition output (p : Inputs) : list Row :=
  map (fun '(etf, target_pct) => size_row p etf target_pct) (final_targets p).

(** The sum of the absolute trade deltas of step 4, every instrument
    counted whatever its action. *)
Definition exact_turnover (p : Inputs) : Q :=
  pysum (map (fun '(etf, target_pct) => Qabs (sized_diff p etf target_pct))
             (final_targets p)).

(** 5) Enforce MAX_TURNOVER_PCT *)

(** [tgt - cur], both parsed back from the row's strings. *)
Definition parsed_diff (o : Row) : Q :=
  inject_Z (Target_rs o) - inject_Z (Current_rs o).

Definition total_proposed_turnover (out : list Row) : Q :=
  pysum (map (fun o => Qabs (parsed_diff o)) out).

Definition turnover_limit (p : Inputs) : Q :=
  MAX_TURNOVER_PCT p * total_value p.

Definition scaling_triggers (limit : Q) (out : list Row) : bool :=
  Qgt_bool (total_proposed_turnover out) limit
  && Qgt_bool (total_proposed_turnover out) 0.

Definition diff_scaled (scale : Q) (o : Row) : Q := parsed_diff o * scale.

Definition scale_row (scale : Q) (o : Row) : Row :=
  let cur := inject_Z (Current_rs o) in
  let new_tgt := cur + diff_scaled scale o in
  {| ETF := ETF o;
     Bucket := Bucket o;
     Valuation_shown := Valuation_shown o;
     Target_pct := Target_pct o;
     Current_rs := Current_rs o;
     Target_rs := round_half_even new_tgt;
     Action_shown := classify_action (diff_scaled scale o) |}.

(** The turnover pass over a report, for a given limit. *)
Definition enforce_turnover (limit : Q) (out : list Row) : list Row :=
  if scaling_triggers limit out
  then map (scale_row (limit / total_proposed_turnover out)) out
  else out.

Definition final_output (p : Inputs) : list Row :=
  enforce_turnover (turnover_limit p) (output p).

(** 8) Total buys / sells *)

(** [o["Action"].startswith("BUY")], [o["Action"].startswith("SELL")] *)
Definition is_buy (a : Action) : bool :=
  match a with BUY _ => true | _ => false end.

Definition is_sell (a : Action) : bool :=
  match a with SELL _ => true | _ => false end.

Definition buy_amounts (out : list Row) : Q :=
  pysum (map (fun o => inject_Z (Target_rs o) - inject_Z (Current_rs o))
             (filter (fun o => is_buy (Action_shown o)) out)).

Definition sell_amounts (out : list Row) : Q :=
  pysum (map (fun o => inject_Z (Current_rs o) - inject_Z (Target_rs o))
             (filter (fun o => is_sell (Action_shown o)) out)).

(** ** Vocabulary of the statements *)

(** Largest key first. *)
Definition by_return_desc (a b : string * Q) : Prop := snd b <= snd a.



(** The valuation bands from cheap to dear. *)
Definition Valuation_rank (v : Valuation) : nat :=
  match v with Undervalued => 0 | Fair => 1 | Overvalued => 2 end.

(** The action of the opposite trade. *)
Definition mirror_action (a : Action) : Action :=
  match a with HOLD => HOLD | BUY n => SELL n | SELL n => BUY n end.

(** The core weights written bucket by bucket, in the order the loops of
    step 1 visit them. *)
Definition core_writes (p : Inputs) : Dict.t Q :=
  flat_map
    (fun '(bucket, bucket_w) =>
       match Dict.get bucket (buffett_within_bucket_weights p) with
       | None => []
       | Some within => map (fun '(etf, w) => (etf, bucket_w * w)) within
       end)
    (bucket_targets p).

(** One round of the outer loop of step 1, and the entries it writes. *)
Definition core_step (p : Inputs) (ct : Dict.t Q) (b : string * Q)
  : Dict.t Q :=
  let '(bucket, bucket_w) := b in
  match Dict.get bucket (buffett_within_bucket_weights p) with
  | None => ct
  | Some within =>
      fold_left (fun ct' '(etf, w) => Dict.set etf (bucket_w * w) ct')
                within ct
  end.

Definition core_bucket_writes (p : Inputs) (b : string * Q) : Dict.t Q :=
  let '(bucket, bucket_w) := b in
  match Dict.get bucket (buffett_within_bucket_weights p) with
  | None => []
  | Some within => map (fun '(etf, w) => (etf, bucket_w * w)) within
  end.



(** The same run over another list of instruments. *)
Definition with_etfs (e : Dict.t string) (p : Inputs) : Inputs :=
  {| etfs := e;
     etf_buckets := etf_buckets p;
     bucket_targets := bucket_targets p;
     buffett_within_bucket_weights := buffett_within_bucket_weights p;
     current_holdings := current_holdings p;
     momentum_pct := momentum_pct p;
     MAX_TURNOVER_PCT := MAX_TURNOVER_PCT p;
     fetch := fetch p |}.

(** ** The parameters the script ships with *)

Module Shipped.
Local Open Scope string_scope.

Definition etfs : Dict.t string :=
  [("NIFTYBEES", "NIFTYBEES.NS"); ("BANKBEES", "BANKBEES.NS");
   ("JUNIORBEES", "JUNIORBEES.NS"); ("MON100", "MON100.NS");
   ("GOLDBEES", "GOLDBEES.NS"); ("SILVERIETF", "SILVERIETF.NS");
   ("LIQUIDBEES", "LIQUIDBEES.NS")].

Definition etf_buckets : Dict.t string :=
  [("NIFTYBEES", "India"); ("BANKBEES", "India"); ("JUNIORBEES", "India");
   ("MON100", "Global"); ("GOLDBEES", "Metal"); ("SILVERIETF", "Metal");
   ("LIQUIDBEES", "Safe")].

Definition bucket_targets : Dict.t Q :=
  [("India", 0.45%Q); ("Global", 0.10%Q); ("Metal", 0.25%Q);
   ("Safe", 0.20%Q)].

Definition buffett_within_bucket_weights : Dict.t (Dict.t Q) :=
  [("India", [("NIFTYBEES", 0.5%Q); ("BANKBEES", 0.3%Q);
              ("JUNIORBEES", 0.2%Q)]);
   ("Global", [("MON100", 1.0%Q)]);
   ("Metal", [("GOLDBEES", 0.6%Q); ("SILVERIETF", 0.4%Q)]);
   ("Safe", [("LIQUIDBEES", 1.0%Q)])].

(** [current_holdings], with the amount of new cash left open. *)
Definition holdings_with_cash (cash : Q) : Dict.t Q :=
  [("GOLDBEES", 0%Q); ("SILVERIETF", 0%Q); ("NIFTYBEES", 103076%Q);
   ("BANKBEES", 102957%Q); ("LIQUIDBEES", 0%Q); ("JUNIORBEES", 0%Q);
   ("MON100", 10660%Q); ("newCash", cash)].

Definition current_holdings : Dict.t Q := holdings_with_cash 130588.

(** The shipped parameters over given holdings and market data. *)
Definition inputs (holdings : Dict.t Q) (fetch : string -> option Metrics)
  : Inputs :=
  Build_Inputs etfs etf_buckets bucket_targets buffett_within_bucket_weights
               holdings 0.05 0.20 fetch.

(** A run in which no price history could be fetched. *)
Definition no_data : Inputs := inputs current_holdings (fun _ => None).
(** Market data in which GOLDBEES and SILVERIETF trend up, MON100 trades
    more than 20% above its one-year average, and nothing else is fetched. *)
Definition metals_up (sym : string) : option Metrics :=
  if String.eqb sym "GOLDBEES.NS"
  then Some {| price := 110; ma200 := 100; avg1y := 100; r6m := Some 8 |}
  else if String.eqb sym "SILVERIETF.NS"
  then Some {| price := 105; ma200 := 100; avg1y := 100; r6m := Some 6 |}
  else if String.eqb sym "MON100.NS"
  then Some {| price := 130; ma200 := 100; avg1y := 100; r6m := Some 30 |}
  else None.

(** Market data in which only LIQUIDBEES is fetched, and is priced more
    than 20% above its one-year average. *)
Definition liquid_rich (sym : string) : option Metrics :=
  if String.eqb sym "LIQUIDBEES.NS"
  then Some {| price := 1300; ma200 := 1000; avg1y := 1000; r6m := Some 3 |}
  else None.

Definition with_metals_up : Inputs := inputs current_holdings metals_up.
Definition with_liquid_rich : Inputs := inputs current_holdings liquid_rich.
(** The shipped parameters with LIQUIDBEES taken off the list of
    instruments, and no fetched history. *)
Definition no_liquid : Inputs :=
  with_etfs [("NIFTYBEES", "NIFTYBEES.NS"); ("BANKBEES", "BANKBEES.NS");
             ("JUNIORBEES", "JUNIORBEES.NS"); ("MON100", "MON100.NS");
             ("GOLDBEES", "GOLDBEES.NS"); ("SILVERIETF", "SILVERIETF.NS")]
            no_data.
(** Market data in which GOLDBEES and SILVERIETF trend up with the same
    six-month return. *)
Definition metals_tied (sym : string) : option Metrics :=
  if String.eqb sym "GOLDBEES.NS"
  then Some {| price := 110; ma200 := 100; avg1y := 100; r6m := Some 8 |}
  else if String.eqb sym "SILVERIETF.NS"
  then Some {| price := 105; ma200 := 100; avg1y := 100; r6m := Some 8 |}
  else None.

Definition with_metals_tied : Inputs := inputs current_holdings metals_tied.
End Shipped.

(** * Properties *)

(** ** Comparisons and sums *)

Lemma Qgt_bool_true (x y : Q) : Qgt_bool x y = true <-> y < x.
Proof.
  unfold Qgt_bool. rewrite negb_true_iff. split; intro H.
  - apply Qnot_le_lt. intro Hle. apply Qle_bool_iff in Hle. congruence.
  - destruct (Qle_bool x y) eqn:E; [|reflexivity].
    apply Qle_bool_iff in E. exfalso. apply (Qlt_not_le _ _ H E).
Qed.

Lemma Qgt_bool_false (x y : Q) : Qgt_bool x y = false <-> x <= y.
Proof.
  unfold Qgt_bool. rewrite negb_false_iff. apply Qle_bool_iff.
Qed.

Lemma Qlt_bool_true (x y : Q) : Qlt_bool x y = true <-> x < y.
Proof. apply (Qgt_bool_true y x). Qed.

Lemma Qlt_bool_false (x y : Q) : Qlt_bool x y = false <-> y <= x.
Proof. apply (Qgt_bool_false y x). Qed.

Lemma fold_left_Qplus (l : list Q) (a : Q) :
  fold_left Qplus l a == a + pysum l.
Proof.
  unfold pysum. revert a. induction l as [|x l IH]; intro a; simpl.
  - lra.
  - rewrite (IH (a + x)), (IH (0 + x)). lra.
Qed.

Lemma pysum_cons (x : Q) (l : list Q) : pysum (x :: l) == x + pysum l.
Proof.
  unfold pysum at 1. simpl. rewrite fold_left_Qplus. lra.
Qed.

Lemma pysum_nil : pysum [] = 0.
Proof. reflexivity. Qed.


Lemma pysum_map_mul (l : list Q) (s : Q) :
  pysum (map (fun v => v * s) l) == pysum l * s.
Proof.
  induction l as [|x l IH]; simpl.
  - rewrite pysum_nil. lra.
  - rewrite !pysum_cons, IH. lra.
Qed.

Lemma pysum_nonneg (l : list Q) :
  (forall x, In x l -> 0 <= x) -> 0 <= pysum l.
Proof.
  induction l as [|x l IH]; intro H.
  - rewrite pysum_nil. lra.
  - rewrite pysum_cons.
    assert (0 <= x) by (apply H; left; reflexivity).
    assert (0 <= pysum l) by (apply IH; intros y Hy; apply H; right; exact Hy).
    lra.
Qed.

(** ** Dictionaries *)

Section DictFacts.
Context {V : Type}.
Implicit Types (d : Dict.t V) (k : string) (v : V).

Lemma get_set_same k v d : Dict.get k (Dict.set k v d) = Some v.
Proof.
  induction d as [|[k' v'] r IH]; simpl.
  - now rewrite String.eqb_refl.
  - destruct (String.eqb k k') eqn:E; simpl; rewrite ?String.eqb_refl, ?E; auto.
Qed.

Lemma get_set_other k k' v d :
  k' <> k -> Dict.get k' (Dict.set k v d) = Dict.get k' d.
Proof.
  intro Hne. induction d as [|[k0 v0] r IH]; simpl.
  - destruct (String.eqb k' k) eqn:E; [apply String.eqb_eq in E; congruence | reflexivity].
  - destruct (String.eqb k k0) eqn:E; simpl.
    + apply String.eqb_eq in E. subst k0.
      destruct (String.eqb k' k) eqn:E'; [apply String.eqb_eq in E'; congruence | reflexivity].
    + now rewrite IH.
Qed.

Lemma keys_set k k' v d :
  In k' (Dict.keys (Dict.set k v d)) <-> k' = k \/ In k' (Dict.keys d).
Proof.
  induction d as [|[k0 v0] r IH]; simpl.
  - intuition.
  - destruct (String.eqb k k0) eqn:E; simpl.
    + apply String.eqb_eq in E. subst k0. intuition.
    + fold (Dict.keys (Dict.set k v r)). fold (Dict.keys r). rewrite IH. intuition.
Qed.

Lemma set_wf k v d : Dict.wf d -> Dict.wf (Dict.set k v d).
Proof.
  unfold Dict.wf. induction d as [|[k0 v0] r IH]; simpl; intro H.
  - constructor; [intros [] | constructor].
  - inversion H as [|? ? Hnin Hnd]; subst.
    destruct (String.eqb k k0) eqn:E; simpl.
    + apply String.eqb_eq in E. subst k0. constructor; assumption.
    + constructor; [|apply IH; assumption].
      fold (Dict.keys (Dict.set k v r)). rewrite keys_set.
      intros [->|Hin]; [rewrite String.eqb_refl in E; discriminate | contradiction].
Qed.

Lemma get_In k v d : Dict.get k d = Some v -> In (k, v) d.
Proof.
  induction d as [|[k0 v0] r IH]; simpl; [discriminate|].
  destruct (String.eqb k k0) eqn:E.
  - apply String.eqb_eq in E. intros [= ->]. subst. now left.
  - intro H. right. now apply IH.
Qed.

Lemma In_get k v d : Dict.wf d -> In (k, v) d -> Dict.get k d = Some v.
Proof.
  unfold Dict.wf. induction d as [|[k0 v0] r IH]; simpl; [contradiction|].
  intros Hnd [Heq|Hin].
  - inversion Heq; subst. now rewrite String.eqb_refl.
  - inversion Hnd as [|? ? Hnin Hnd']; subst.
    destruct (String.eqb k k0) eqn:E.
    + apply String.eqb_eq in E. subst k0. exfalso. apply Hnin.
      change k with (fst (k, v)). now apply in_map.
    + now apply IH.
Qed.

Lemma get_keys k d : In k (Dict.keys d) <-> exists v, Dict.get k d = Some v.
Proof.
  induction d as [|[k0 v0] r IH]; simpl.
  - split; [contradiction | intros [v [=]]].
  - destruct (String.eqb k k0) eqn:E.
    + apply String.eqb_eq in E. subst k0. split; eauto.
    + fold (Dict.keys r). rewrite <- IH. split; [|tauto].
      intros [->|H]; [rewrite String.eqb_refl in E; discriminate | exact H].
Qed.

(** A dict filled key by key, as a loop or a comprehension does. *)
Lemma get_fold_set (f : string -> V) (ks : list string) d k :
  Dict.get k (fold_left (fun acc k' => Dict.set k' (f k') acc) ks d)
  = if in_dec string_dec k ks then Some (f k) else Dict.get k d.
Proof.
  revert d. induction ks as [|k0 ks IH]; intro d; simpl; [reflexivity|].
  rewrite IH. destruct (in_dec string_dec k ks) as [Hin|Hnin].
  - destruct (string_dec k0 k); reflexivity.
  - destruct (string_dec k0 k) as [->|Hne].
    + apply get_set_same.
    + apply get_set_other. congruence.
Qed.

Lemma keys_fold_set (f : string -> V) (ks : list string) d k :
  In k (Dict.keys (fold_left (fun acc k' => Dict.set k' (f k') acc) ks d))
  <-> In k ks \/ In k (Dict.keys d).
Proof.
  revert d. induction ks as [|k0 ks IH]; intro d; simpl; [tauto|].
  rewrite IH, keys_set. intuition.
Qed.

Lemma get_map_values {W : Type} (g : V -> W) k d :
  Dict.get k (map (fun '(k', v) => (k', g v)) d) = option_map g (Dict.get k d).
Proof.
  induction d as [|[k0 v0] r IH]; simpl; [reflexivity|].
  destruct (String.eqb k k0); [reflexivity | exact IH].
Qed.

End DictFacts.

(** ** The blended targets and their normalisation *)

Lemma etf_metrics_keys (p : Inputs) (etf : string) :
  In etf (Dict.keys (etf_metrics p)) <-> In etf (Dict.keys (etfs p)).
Proof.
  unfold etf_metrics.
  assert (H : forall l (d : Dict.t (option Metrics)),
             In etf (Dict.keys
                       (fold_left (fun d '(name, sym) =>
                                     Dict.set name (fetch p sym) d) l d))
             <-> In etf (Dict.keys l) \/ In etf (Dict.keys d)).
  { induction l as [|[name sym] l IH]; intro d; simpl; [tauto|].
    rewrite IH, keys_set. fold (Dict.keys l). intuition. }
  rewrite H. simpl. tauto.
Qed.

Lemma blended_targets_get (p : Inputs) (etf : string) :
  In etf (Dict.keys (etfs p)) ->
  Dict.get etf (blended_targets p)
  = Some (Dict.get_default etf 0 (core_targets p) + tactical_term p etf).
Proof.
  intro Hin. unfold blended_targets.
  rewrite (get_fold_set
             (fun e => Dict.get_default e 0 (core_targets p) + tactical_term p e)).
  destruct (in_dec string_dec etf (Dict.keys (etfs p))); [reflexivity | contradiction].
Qed.

Lemma final_targets_get (p : Inputs) (etf : string) :
  Dict.get etf (final_targets p)
  = if Qgt_bool (sum_targets p) 1
    then option_map (fun v => v / sum_targets p) (Dict.get etf (blended_targets p))
    else Dict.get etf (blended_targets p).
Proof.
  unfold final_targets. destruct (Qgt_bool (sum_targets p) 1); [|reflexivity].
  apply get_map_values.
Qed.



(** C5.  An instrument valued Overvalued (it is then one of [etfs]) gets no
    tactical contribution: its tactical term is forced to 0, its blended
    weight is its core weight plus that 0, and its final weight is the core
    weight, divided by the sum of the blended weights only when that sum
    exceeds 1. *)
Theorem overvalued_keeps_core_only (p : Inputs) (etf : string) :
  valuation_of p etf = Some Overvalued ->
  In etf (Dict.keys (etfs p))
  /\ tactical_term p etf = 0
  /\ Dict.get etf (blended_targets p)
     = Some (Dict.get_default etf 0 (core_targets p) + 0)
  /\ exists w,
       Dict.get etf (final_targets p) = Some w
       /\ ((sum_targets p <= 1
            /\ w == Dict.get_default etf 0 (core_targets p))
           \/ (1 < sum_targets p
               /\ w == Dict.get_default etf 0 (core_targets p)
                       / sum_targets p)).
Proof.
  intros Hval.
  assert (Hin : In etf (Dict.keys (etfs p))).
  { apply etf_metrics_keys, get_keys. unfold valuation_of in Hval.
    destruct (Dict.get etf (etf_metrics p)); [eauto | discriminate]. }
  assert (Ht : tactical_term p etf = 0).
  { unfold tactical_term. rewrite Hval. reflexivity. }
  assert (Hb : Dict.get etf (blended_targets p)
               = Some (Dict.get_default etf 0 (core_targets p) + 0)).
  { rewrite (blended_targets_get p etf Hin), Ht. reflexivity. }
  split; [exact Hin|]. split; [exact Ht|]. split; [exact Hb|].
  rewrite final_targets_get, Hb.
  destruct (Qgt_bool (sum_targets p) 1) eqn:E; simpl.
  - apply Qgt_bool_true in E. eexists. split; [reflexivity|]. right.
    split; [exact E|]. field. lra.
  - apply Qgt_bool_false in E. eexists. split; [reflexivity|]. left.
    split; [exact E|]. lra.
Qed.

Lemma overvalued_keeps_core_only_witness :
  valuation_of Shipped.with_metals_up "MON100"%string = Some Overvalued
  /\ tactical_term Shipped.with_metals_up "MON100"%string = 0
  /\ exists w,
       Dict.get "MON100"%string (final_targets Shipped.with_metals_up) = Some w
       /\ w == 0.10 / 1.05.
Proof.
  assert (Hval : valuation_of Shipped.with_metals_up "MON100"%string
                 = Some Overvalued) by (vm_compute; reflexivity).
  destruct (overvalued_keeps_core_only _ _ Hval) as (_ & Ht & _ & w & Hw & _).
  split; [exact Hval|]. split; [exact Ht|].
  exists w. split; [exact Hw|].
  vm_compute in Hw. injection Hw as <-. reflexivity.
Defined.

(** ** The candidate scan and its sort *)

Lemma fold_left_invariant {A B : Type} (P : A -> Prop) (step : A -> B -> A)
      (l : list B) (a : A) :
  (forall a' b, In b l -> P a' -> P (step a' b)) ->
  P a -> P (fold_left step l a).
Proof.
  revert a. induction l as [|b l IH]; intros a Hstep Ha; simpl; [exact Ha|].
  apply IH.
  - intros a' b' Hin. apply Hstep. now right.
  - apply Hstep; [now left | exact Ha].
Qed.

Lemma etf_metrics_wf (p : Inputs) : Dict.wf (etf_metrics p).
Proof.
  unfold etf_metrics. apply fold_left_invariant.
  - intros d [name sym] _ Hd. now apply set_wf.
  - constructor.
Qed.

Lemma candidate_of_Some (name : string) (metrics : option Metrics)
      (c : string * Q) :
  candidate_of name metrics = Some c <->
  exists m r,
    metrics = Some m /\ c = (name, r)
    /\ name <> LIQUIDBEES
    /\ classify_valuation (price m) (avg1y m) <> Overvalued
    /\ ma200 m < price m
    /\ r6m m = Some r
    /\ 0 < r.
Proof.
  unfold candidate_of. split.
  - destruct metrics as [m|]; [|discriminate].
    destruct (String.eqb name LIQUIDBEES) eqn:En; [discriminate|].
    destruct (r6m m) as [r|] eqn:Er; [|discriminate].
    intro H.
    assert (Hv : classify_valuation (price m) (avg1y m) <> Overvalued).
    { intro Ev. rewrite Ev in H. discriminate. }
    destruct (Qgt_bool (price m) (ma200 m)) eqn:Eu;
      [|rewrite andb_false_r in H; discriminate].
    destruct (Qgt_bool r 0) eqn:Eg;
      [|rewrite andb_false_r in H; discriminate].
    rewrite !andb_true_r in H.
    destruct (negb (Valuation_eqb (classify_valuation (price m) (avg1y m))
                                  Overvalued)); [|discriminate].
    injection H as <-. exists m, r.
    apply Qgt_bool_true in Eu. apply Qgt_bool_true in Eg.
    repeat split; auto.
    intros ->. rewrite String.eqb_refl in En. discriminate.
  - intros (m & r & -> & -> & Hn & Hv & Hu & Hr & Hpos).
    apply String.eqb_neq in Hn. rewrite Hn, Hr.
    apply Qgt_bool_true in Hu. apply Qgt_bool_true in Hpos.
    rewrite Hu, Hpos.
    destruct (classify_valuation (price m) (avg1y m)); simpl;
      [congruence | reflexivity | reflexivity].
Qed.

Lemma scan_candidates_In (items : list (string * option Metrics))
      (c : string * Q) :
  In c (scan_candidates items) <->
  exists name metrics,
    In (name, metrics) items /\ candidate_of name metrics = Some c.
Proof.
  induction items as [|[name metrics] rest IH]; simpl.
  - split; [contradiction | intros (? & ? & [] & _)].
  - destruct (candidate_of name metrics) as [c'|] eqn:E; simpl; rewrite IH.
    + split.
      * intros [<-|(n & m & Hin & Hc)]; [exists name, metrics; auto|].
        exists n, m. auto.
      * intros (n & m & [Heq|Hin] & Hc).
        -- inversion Heq; subst. left. congruence.
        -- right. exists n, m. auto.
    + split.
      * intros (n & m & Hin & Hc). exists n, m. auto.
      * intros (n & m & [Heq|Hin] & Hc).
        -- inversion Heq; subst. congruence.
        -- exists n, m. auto.
Qed.

Lemma insert_desc_perm (x : string * Q) (l : list (string * Q)) :
  Permutation (x :: l) (insert_desc x l).
Proof.
  induction l as [|y r IH]; simpl; [reflexivity|].
  destruct (Qgt_bool (snd y) (snd x)); [|reflexivity].
  rewrite perm_swap. now apply perm_skip.
Qed.

Lemma sort_desc_perm (l : list (string * Q)) : Permutation l (sort_desc l).
Proof.
  induction l as [|x l IH]; simpl; [reflexivity|].
  rewrite <- insert_desc_perm. now apply perm_skip.
Qed.

Lemma sort_desc_In (l : list (string * Q)) (c : string * Q) :
  In c (sort_desc l) <-> In c l.
Proof.
  split; apply Permutation_in;
    [apply Permutation_sym|]; apply sort_desc_perm.
Qed.

Lemma insert_desc_sorted (x : string * Q) (l : list (string * Q)) :
  StronglySorted by_return_desc l ->
  StronglySorted by_return_desc (insert_desc x l).
Proof.
  induction l as [|y r IH]; simpl; intro Hs.
  - repeat constructor.
  - apply StronglySorted_inv in Hs. destruct Hs as [Hr Hy].
    destruct (Qgt_bool (snd y) (snd x)) eqn:E.
    + apply Qgt_bool_true in E. constructor; [now apply IH|].
      rewrite Forall_forall in *. intros z Hz.
      apply (Permutation_in _ (Permutation_sym (insert_desc_perm x r))) in Hz.
      destruct Hz as [<-|Hz]; [unfold by_return_desc; lra | now apply Hy].
    + apply Qgt_bool_false in E.
      constructor; [constructor; assumption|].
      constructor; [exact E|].
      rewrite Forall_forall in *. intros z Hz.
      specialize (Hy z Hz). unfold by_return_desc in *. lra.
Qed.

Lemma sort_desc_sorted (l : list (string * Q)) :
  StronglySorted by_return_desc (sort_desc l).
Proof.
  induction l as [|x l IH]; simpl; [constructor | now apply insert_desc_sorted].
Qed.

Lemma sort_desc_head_max (l : list (string * Q)) top rest :
  sort_desc l = top :: rest -> forall c, In c l -> snd c <= snd top.
Proof.
  intros Hs c Hc. apply sort_desc_In in Hc. rewrite Hs in Hc.
  pose proof (sort_desc_sorted l) as Hsorted. rewrite Hs in Hsorted.
  apply StronglySorted_inv in Hsorted. destruct Hsorted as [_ Hall].
  destruct Hc as [<-|Hc]; [lra|].
  rewrite Forall_forall in Hall. exact (Hall c Hc).
Qed.

(** The sort is stable: of several entries with the largest return, the
    first one scanned comes out on top. *)
Lemma sort_desc_head_first (l : list (string * Q)) top rest :
  sort_desc l = top :: rest ->
  exists before after,
    l = before ++ top :: after
    /\ forall c, In c before -> snd c < snd top.
Proof.
  revert top rest. induction l as [|x l IH]; intros top rest; simpl.
  - discriminate.
  - destruct (sort_desc l) as [|y r] eqn:Es; simpl.
    + intros [= <- <-]. exists [], l. split; [reflexivity | contradiction].
    + destruct (Qgt_bool (snd y) (snd x)) eqn:E.
      * intros [= <- <-]. apply Qgt_bool_true in E.
        destruct (IH y r eq_refl) as (before & after & -> & Hlt).
        exists (x :: before), after. split; [reflexivity|].
        intros c [<-|Hc]; [exact E | now apply Hlt].
      * intros [= <- <-]. exists [], l. split; [reflexivity | contradiction].
Qed.

Lemma momentum_candidates_eligible (p : Inputs) (name : string) (r : Q) :
  In (name, r) (momentum_candidates p) <-> eligible p name r.
Proof.
  unfold momentum_candidates, eligible.
  rewrite sort_desc_In, scan_candidates_In. split.
  - intros (n & metrics & Hin & Hc).
    apply candidate_of_Some in Hc.
    destruct Hc as (m & r' & -> & Heq & Hrest). inversion Heq; subst.
    exists m. split; [|exact Hrest].
    apply In_get; [apply etf_metrics_wf | exact Hin].
  - intros (m & Hget & Hrest).
    exists name, (Some m). split; [now apply get_In|].
    apply candidate_of_Some. exists m, r. auto.
Qed.

(** ** The tactical allocation *)

Lemma zero_allocation_get (p : Inputs) (etf : string) :
  Dict.get etf (zero_allocation p)
  = if in_dec string_dec etf (Dict.keys (etfs p)) then Some 0 else None.
Proof.
  unfold zero_allocation. now rewrite (get_fold_set (fun _ => 0)).
Qed.

Lemma tactical_allocation_set (p : Inputs) :
  tactical_allocation p
  = Dict.set (tactical_target p) (momentum_pct p) (zero_allocation p).
Proof.
  unfold tactical_allocation, tactical_target.
  destruct (momentum_candidates p) as [|[top r] rest]; reflexivity.
Qed.

Lemma tactical_allocation_target (p : Inputs) :
  Dict.get (tactical_target p) (tactical_allocation p) = Some (momentum_pct p).
Proof. rewrite tactical_allocation_set. apply get_set_same. Qed.

Lemma tactical_allocation_other (p : Inputs) (etf : string) (v : Q) :
  etf <> tactical_target p ->
  Dict.get etf (tactical_allocation p) = Some v -> v = 0.
Proof.
  intros Hne. rewrite tactical_allocation_set, get_set_other by exact Hne.
  rewrite zero_allocation_get.
  destruct (in_dec string_dec etf (Dict.keys (etfs p))); congruence.
Qed.

Lemma tactical_allocation_covers (p : Inputs) (etf : string) :
  In etf (Dict.keys (etfs p)) ->
  exists v, Dict.get etf (tactical_allocation p) = Some v.
Proof.
  intro Hin. apply get_keys. rewrite tactical_allocation_set, keys_set.
  right. apply get_keys. rewrite zero_allocation_get.
  destruct (in_dec string_dec etf (Dict.keys (etfs p))); [eauto | contradiction].
Qed.

Lemma tactical_target_cases (p : Inputs) :
  (exists r, eligible p (tactical_target p) r
             /\ forall etf r', eligible p etf r' -> r' <= r)
  \/ ((forall etf r', ~ eligible p etf r')
      /\ momentum_candidates p = []
      /\ tactical_target p = LIQUIDBEES).
Proof.
  unfold tactical_target.
  destruct (momentum_candidates p) as [|[top r] rest] eqn:E.
  - right. split; [|auto]. intros etf r' He.
    apply momentum_candidates_eligible in He. rewrite E in He. exact He.
  - left. exists r. split.
    + apply momentum_candidates_eligible. rewrite E. now left.
    + intros etf r' He. apply momentum_candidates_eligible in He.
      unfold momentum_candidates in E, He.
      apply (proj1 (sort_desc_In _ _)) in He.
      exact (sort_desc_head_max _ _ _ E (etf, r') He).
Qed.

(** Ties are broken by scan order: every candidate scanned before the
    selected one has a strictly smaller six-month return. *)
Lemma tactical_target_first_encountered (p : Inputs) top r rest :
  momentum_candidates p = (top, r) :: rest ->
  exists before after,
    scan_candidates (etf_metrics p) = before ++ (top, r) :: after
    /\ forall c, In c before -> snd c < r.
Proof.
  intro E. exact (sort_desc_head_first _ _ _ E).
Qed.

(** C4.  With a positive momentum_pct exactly one instrument has a nonzero
    tactical allocation, and it equals momentum_pct: when some instrument is
    eligible it is an eligible one whose six-month return no eligible
    instrument exceeds, when none is eligible it is LIQUIDBEES; every
    instrument of [etfs] has an entry and every other entry is 0. *)
Theorem exactly_one_tactical_allocation (p : Inputs) :
  0 < momentum_pct p ->
  Dict.get (tactical_target p) (tactical_allocation p) = Some (momentum_pct p)
  /\ (forall etf, In etf (Dict.keys (etfs p)) ->
        exists v, Dict.get etf (tactical_allocation p) = Some v)
  /\ (forall etf v,
        Dict.get etf (tactical_allocation p) = Some v ->
        (etf = tactical_target p /\ v = momentum_pct p /\ ~ v == 0)
        \/ (etf <> tactical_target p /\ v = 0))
  /\ ((exists r, eligible p (tactical_target p) r
                 /\ forall etf r', eligible p etf r' -> r' <= r)
      \/ ((forall etf r', ~ eligible p etf r')
          /\ tactical_target p = LIQUIDBEES)).
Proof.
  intro Hpos. split; [apply tactical_allocation_target|].
  split; [apply tactical_allocation_covers|]. split.
  - intros etf v Hget. destruct (string_dec etf (tactical_target p)) as [->|Hne].
    + left. rewrite tactical_allocation_target in Hget. injection Hget as <-.
      repeat split. lra.
    + right. split; [exact Hne|]. eapply tactical_allocation_other; eauto.
  - destruct (tactical_target_cases p) as [H|(H & _ & Ht)]; [left | right]; auto.
Qed.

Lemma exactly_one_tactical_allocation_witness :
  0 < momentum_pct Shipped.with_metals_up
  /\ tactical_target Shipped.with_metals_up = "GOLDBEES"%string
  /\ Dict.get "GOLDBEES"%string (tactical_allocation Shipped.with_metals_up)
     = Some 0.05
  /\ (exists r, eligible Shipped.with_metals_up "GOLDBEES"%string r).
Proof.
  assert (Hpos : 0 < momentum_pct Shipped.with_metals_up)
    by (vm_compute; reflexivity).
  destruct (exactly_one_tactical_allocation _ Hpos) as (Hget & _ & _ & Hwho).
  assert (Ht : tactical_target Shipped.with_metals_up = "GOLDBEES"%string)
    by (vm_compute; reflexivity).
  rewrite Ht in Hget, Hwho.
  split; [exact Hpos|]. split; [exact Ht|]. split; [exact Hget|].
  destruct Hwho as [(r & He & _)|(_ & Habs)]; [eauto | discriminate Habs].
Defined.

Lemma valuation_of_eligible (p : Inputs) (etf : string) (r : Q) :
  eligible p etf r ->
  exists v, valuation_of p etf = Some v /\ v <> Overvalued.
Proof.
  intros (m & Hget & _ & Hv & _). unfold valuation_of. rewrite Hget. eauto.
Qed.

Lemma tactical_term_not_overvalued (p : Inputs) (etf : string) :
  is_overvalued (valuation_of p etf) = false ->
  tactical_term p etf = Dict.get_default etf 0 (tactical_allocation p).
Proof. unfold tactical_term. now intros ->. Qed.

Lemma is_overvalued_false (v : option Valuation) :
  v <> Some Overvalued -> is_overvalued v = false.
Proof. destruct v as [[]|]; simpl; congruence. Qed.

(** C10.  A selected candidate is never valued Overvalued, so the override
    leaves its tactical weight in place; an allocation the override does
    cancel can only be the fallback one, to LIQUIDBEES with no candidate. *)
Theorem override_spares_selected_candidate (p : Inputs) :
  (forall top r rest,
      momentum_candidates p = (top, r) :: rest ->
      (exists v, valuation_of p top = Some v /\ v <> Overvalued)
      /\ tactical_term p top = momentum_pct p)
  /\ (forall etf,
        is_overvalued (valuation_of p etf) = true ->
        ~ Dict.get_default etf 0 (tactical_allocation p) == 0 ->
        momentum_candidates p = [] /\ etf = LIQUIDBEES).
Proof.
  assert (Hsel : forall top r rest,
             momentum_candidates p = (top, r) :: rest ->
             (exists v, valuation_of p top = Some v /\ v <> Overvalued)
             /\ tactical_term p top = momentum_pct p).
  { intros top r rest E.
    assert (He : eligible p top r).
    { apply momentum_candidates_eligible. rewrite E. now left. }
    destruct (valuation_of_eligible _ _ _ He) as (v & Hv & Hne).
    split; [eauto|].
    rewrite tactical_term_not_overvalued
      by (apply is_overvalued_false; congruence).
    unfold tactical_allocation, Dict.get_default. rewrite E.
    now rewrite get_set_same. }
  split; [exact Hsel|].
  intros etf Hov Hnz.
  assert (Het : etf = tactical_target p).
  { destruct (string_dec etf (tactical_target p)) as [|Hne]; [assumption|].
    exfalso. apply Hnz. unfold Dict.get_default.
    destruct (Dict.get etf (tactical_allocation p)) as [v|] eqn:Eg; [|reflexivity].
    now rewrite (tactical_allocation_other p etf v Hne Eg). }
  unfold tactical_target in Het.
  destruct (momentum_candidates p) as [|[top r] rest] eqn:E; [auto|].
  exfalso. subst etf.
  destruct (Hsel top r rest eq_refl) as ((v & Hv & Hne) & _).
  rewrite Hv in Hov. destruct v; simpl in Hov; congruence.
Qed.

Lemma override_spares_selected_candidate_witness :
  (momentum_candidates Shipped.with_metals_up
   = [("GOLDBEES"%string, 8); ("SILVERIETF"%string, 6)]
   /\ tactical_term Shipped.with_metals_up "GOLDBEES"%string = 0.05)
  /\ (is_overvalued (valuation_of Shipped.with_liquid_rich LIQUIDBEES) = true
      /\ ~ Dict.get_default LIQUIDBEES 0
             (tactical_allocation Shipped.with_liquid_rich) == 0
      /\ tactical_term Shipped.with_liquid_rich LIQUIDBEES = 0
      /\ momentum_candidates Shipped.with_liquid_rich = []).
Proof.
  split.
  - assert (E : momentum_candidates Shipped.with_metals_up
                = [("GOLDBEES"%string, 8); ("SILVERIETF"%string, 6)])
      by (vm_compute; reflexivity).
    split; [exact E|].
    exact (proj2 (proj1 (override_spares_selected_candidate _) _ _ _ E)).
  - assert (Hov : is_overvalued (valuation_of Shipped.with_liquid_rich LIQUIDBEES)
                  = true) by (vm_compute; reflexivity).
    assert (Hnz : ~ Dict.get_default LIQUIDBEES 0
                      (tactical_allocation Shipped.with_liquid_rich) == 0)
      by (vm_compute; discriminate).
    split; [exact Hov|]. split; [exact Hnz|].
    split; [vm_compute; reflexivity|].
    exact (proj1 (proj2 (override_spares_selected_candidate _) _ Hov Hnz)).
Defined.

(** ** Core targets *)

(** Every core weight is a bucket's target times the within-bucket weight
    that bucket gives the instrument. *)
Lemma core_targets_product (p : Inputs) (etf : string) (c : Q) :
  Dict.get etf (core_targets p) = Some c ->
  exists bucket bucket_w within w,
    In (bucket, bucket_w) (bucket_targets p)
    /\ Dict.get bucket (buffett_within_bucket_weights p) = Some within
    /\ In (etf, w) within
    /\ c = bucket_w * w.
Proof.
  unfold core_targets. revert etf c.
  apply (fold_left_invariant
           (fun ct => forall etf c, Dict.get etf ct = Some c ->
              exists bucket bucket_w within w,
                In (bucket, bucket_w) (bucket_targets p)
                /\ Dict.get bucket (buffett_within_bucket_weights p) = Some within
                /\ In (etf, w) within
                /\ c = bucket_w * w)).
  - intros ct [bucket bucket_w] Hb Hct.
    destruct (Dict.get bucket (buffett_within_bucket_weights p))
      as [within|] eqn:Ew; [|exact Hct].
    apply fold_left_invariant; [|exact Hct].
    intros ct' [etf0 w0] Hin Hct' etf c Hget.
    destruct (string_dec etf etf0) as [->|Hne].
    + rewrite get_set_same in Hget. injection Hget as <-.
      exists bucket, bucket_w, within, w0. auto.
    + rewrite get_set_other in Hget by exact Hne. now apply Hct'.
  - intros etf c [=].
Qed.

(** ** The fallback allocation *)

Lemma no_eligible_no_candidates (p : Inputs) :
  (forall etf r, ~ eligible p etf r) <-> momentum_candidates p = [].
Proof.
  split.
  - intro H. destruct (momentum_candidates p) as [|[top r] rest] eqn:E; [reflexivity|].
    exfalso. apply (H top r). apply momentum_candidates_eligible.
    rewrite E. now left.
  - intros E etf r He. apply momentum_candidates_eligible in He.
    rewrite E in He. exact He.
Qed.





(** ** Instruments without metrics *)






(** ** Whole-rupee rounding *)

Lemma round_half_even_error (x : Q) :
  Qabs (inject_Z (round_half_even x) - x) <= 1 # 2.
Proof.
  unfold round_half_even.
  pose proof (Qfloor_le x) as Hlo. pose proof (Qlt_floor x) as Hhi.
  rewrite inject_Z_plus in Hhi. change (inject_Z 1) with 1 in Hhi.
  apply Qabs_Qle_condition.
  destruct (Qlt_bool (x - inject_Z (Qfloor x)) (1 # 2)) eqn:E1.
  - apply Qlt_bool_true in E1. lra.
  - apply Qlt_bool_false in E1.
    destruct (Qgt_bool (x - inject_Z (Qfloor x)) (1 # 2)) eqn:E2.
    + apply Qgt_bool_true in E2. rewrite inject_Z_plus.
      change (inject_Z 1) with 1. lra.
    + apply Qgt_bool_false in E2.
      destruct (Z.even (Qfloor x)); [lra|].
      rewrite inject_Z_plus. change (inject_Z 1) with 1. lra.
Qed.

Lemma round_half_even_inject (z : Z) : round_half_even (inject_Z z) = z.
Proof.
  unfold round_half_even. rewrite Qfloor_Z.
  replace (Qlt_bool (inject_Z z - inject_Z z) (1 # 2)) with true; [reflexivity|].
  symmetry. apply Qlt_bool_true. lra.
Qed.



(** ** The measured turnover *)




(** On the shipped parameters the two differ by 19/35 of a rupee. *)
Lemma rounding_gap_on_shipped_parameters :
  Qabs (total_proposed_turnover (output Shipped.no_data)
        - exact_turnover Shipped.no_data) == 19 # 35.
Proof. vm_compute. reflexivity. Qed.

(** ** The turnover cap *)

Lemma total_proposed_turnover_nonneg (out : list Row) :
  0 <= total_proposed_turnover out.
Proof.
  unfold total_proposed_turnover. apply pysum_nonneg. intros x Hx.
  apply in_map_iff in Hx. destruct Hx as (o & <- & _). apply Qabs_nonneg.
Qed.

Lemma scaling_triggers_true (limit : Q) (out : list Row) :
  scaling_triggers limit out = true <->
  limit < total_proposed_turnover out /\ 0 < total_proposed_turnover out.
Proof.
  unfold scaling_triggers. now rewrite andb_true_iff, !Qgt_bool_true.
Qed.

Lemma pysum_map_Qeq {A : Type} (f g : A -> Q) (l : list A) :
  (forall a, In a l -> f a == g a) -> pysum (map f l) == pysum (map g l).
Proof.
  induction l as [|a l IH]; intro H; simpl; [reflexivity|].
  rewrite !pysum_cons, (H a) by now left.
  rewrite IH; [reflexivity|]. intros b Hb. apply H. now right.
Qed.

Lemma scaled_turnover (scale : Q) (out : list Row) :
  pysum (map (fun o => Qabs (diff_scaled scale o)) out)
  == total_proposed_turnover out * Qabs scale.
Proof.
  unfold total_proposed_turnover, diff_scaled.
  rewrite <- pysum_map_mul, map_map. apply pysum_map_Qeq.
  intros o _. apply Qabs_Qmult.
Qed.








(** ** Running the cap twice *)


(** The turnover measured again on a scaled report: the scaled targets
    rounded to whole rupees, against the same current amounts. *)
Lemma total_proposed_turnover_scaled (scale : Q) (out : list Row) :
  total_proposed_turnover (map (scale_row scale) out)
  = pysum (map (fun o =>
                  Qabs (inject_Z (round_half_even
                                    (inject_Z (Current_rs o)
                                     + diff_scaled scale o))
                        - inject_Z (Current_rs o)))
               out).
Proof.
  unfold total_proposed_turnover. rewrite map_map. reflexivity.
Qed.

Lemma scaled_turnover_sum (limit : Q) (out : list Row) :
  scaling_triggers limit out = true ->
  0 <= limit ->
  pysum (map (fun o =>
                Qabs (diff_scaled (limit / total_proposed_turnover out) o))
             out) == limit.
Proof.
  intros Ht Hlim. rewrite scaled_turnover. apply scaling_triggers_true in Ht.
  destruct Ht as [_ Htp]. rewrite Qabs_pos.
  - field. lra.
  - apply Qle_shift_div_l; [exact Htp | lra].
Qed.

Lemma enforce_turnover_triggered (limit : Q) (out : list Row) :
  scaling_triggers limit out = true ->
  enforce_turnover limit out
  = map (scale_row (limit / total_proposed_turnover out)) out.
Proof. intro H. unfold enforce_turnover. now rewrite H. Qed.





(** * Further properties of the script *)

(** ** Valuation bands *)






(** X2.  For a fixed one-year average the class never gets cheaper as the
    price rises: Undervalued, then Fair, then Overvalued. *)
Theorem classify_valuation_monotone (latest latest' avg : Q) :
  latest <= latest' ->
  (Valuation_rank (classify_valuation latest avg)
   <= Valuation_rank (classify_valuation latest' avg))%nat.
Proof.
  intro Hle. unfold classify_valuation.
  destruct (Qgt_bool latest (avg * 1.2)) eqn:E1;
    destruct (Qgt_bool latest' (avg * 1.2)) eqn:E2;
    destruct (Qlt_bool latest (avg * 0.9)) eqn:E3;
    destruct (Qlt_bool latest' (avg * 0.9)) eqn:E4;
    simpl; try lia;
    repeat match goal with
           | H : Qgt_bool _ _ = true |- _ => apply Qgt_bool_true in H
           | H : Qgt_bool _ _ = false |- _ => apply Qgt_bool_false in H
           | H : Qlt_bool _ _ = true |- _ => apply Qlt_bool_true in H
           | H : Qlt_bool _ _ = false |- _ => apply Qlt_bool_false in H
           end; exfalso; lra.
Qed.

Lemma classify_valuation_monotone_witness :
  (Valuation_rank (classify_valuation 85 100)
   <= Valuation_rank (classify_valuation 125 100))%nat.
Proof.
  apply classify_valuation_monotone. vm_compute. discriminate.
Defined.

(** ** Rounding and the deadband *)

Lemma round_half_even_floor (x : Q) :
  (Qfloor x <= round_half_even x <= Qfloor x + 1)%Z.
Proof.
  unfold round_half_even.
  destruct (Qlt_bool _ _); [lia|].
  destruct (Qgt_bool _ _); [lia|].
  destruct (Z.even _); lia.
Qed.

Lemma round_half_even_monotone (x y : Q) :
  x <= y -> (round_half_even x <= round_half_even y)%Z.
Proof.
  intro Hle. pose proof (Qfloor_resp_le _ _ Hle) as Hf.
  destruct (Z.eq_dec (Qfloor x) (Qfloor y)) as [Heq|Hne].
  - unfold round_half_even. rewrite <- Heq.
    destruct (Qlt_bool (x - inject_Z (Qfloor x)) (1 # 2)) eqn:X1;
      destruct (Qgt_bool (x - inject_Z (Qfloor x)) (1 # 2)) eqn:X2;
      destruct (Qlt_bool (y - inject_Z (Qfloor x)) (1 # 2)) eqn:Y1;
      destruct (Qgt_bool (y - inject_Z (Qfloor x)) (1 # 2)) eqn:Y2;
      destruct (Z.even (Qfloor x)); try lia;
      repeat match goal with
             | H : Qgt_bool _ _ = true |- _ => apply Qgt_bool_true in H
             | H : Qgt_bool _ _ = false |- _ => apply Qgt_bool_false in H
             | H : Qlt_bool _ _ = true |- _ => apply Qlt_bool_true in H
             | H : Qlt_bool _ _ = false |- _ => apply Qlt_bool_false in H
             end; exfalso; lra.
  - pose proof (round_half_even_floor x). pose proof (round_half_even_floor y).
    lia.
Qed.

Lemma Qopp_opp (x : Q) : - - x = x.
Proof. destruct x as [n d]. unfold Qopp. simpl. now rewrite Z.opp_involutive. Qed.

Lemma classify_action_cases (diff : Q) :
  (classify_action diff = HOLD <-> Qabs diff < 1000)
  /\ (forall n, classify_action diff = BUY n ->
        1000 <= diff /\ n = round_half_even diff /\ (1000 <= n)%Z)
  /\ (forall n, classify_action diff = SELL n ->
        diff <= -1000 /\ n = round_half_even (- diff) /\ (1000 <= n)%Z).
Proof.
  unfold classify_action, deadband.
  destruct (Qlt_bool (Qabs diff) 1000) eqn:E.
  - apply Qlt_bool_true in E.
    split; [tauto|]. split; intros n [=].
  - apply Qlt_bool_false in E.
    assert (Hbig : 1000 <= diff \/ diff <= -1000).
    { revert E. apply (Qabs_case diff); intros; lra. }
    destruct (Qgt_bool diff 0) eqn:E0.
    + apply Qgt_bool_true in E0.
      assert (Hd : 1000 <= diff) by lra.
      split; [split; [discriminate | intro; exfalso; lra]|].
      split; [|intros n [=]].
      intros n [= <-]. split; [exact Hd|]. split; [reflexivity|].
      rewrite <- (round_half_even_inject 1000).
      now apply round_half_even_monotone.
    + apply Qgt_bool_false in E0.
      assert (Hd : diff <= -1000) by lra.
      split; [split; [discriminate | intro; exfalso; lra]|].
      split; [intros n [=]|].
      intros n [= <-]. split; [exact Hd|]. split; [reflexivity|].
      rewrite <- (round_half_even_inject 1000).
      apply round_half_even_monotone. change (inject_Z 1000) with 1000. lra.
Qed.

(** X3.  The deadband of steps 4 and 5: the label is HOLD exactly when the
    delta is less than 1000 rupees in absolute value; a BUY is shown only for
    a delta of at least +1000 and a SELL only for one of at most -1000, and
    the amount shown is the delta rounded to whole rupees, never below 1000. *)
Theorem classify_action_deadband (diff : Q) :
  (classify_action diff = HOLD <-> Qabs diff < 1000)
  /\ (forall n, classify_action diff = BUY n ->
        1000 <= diff /\ n = round_half_even diff /\ (1000 <= n)%Z)
  /\ (forall n, classify_action diff = SELL n ->
        diff <= -1000 /\ n = round_half_even (- diff) /\ (1000 <= n)%Z).
Proof. exact (classify_action_cases diff). Qed.

(** X4.  Buying and selling are treated alike: the opposite delta gets the
    opposite label with the same amount. *)
Theorem classify_action_mirror (diff : Q) :
  classify_action (- diff) = mirror_action (classify_action diff).
Proof.
  unfold classify_action, deadband.
  assert (Habs : Qlt_bool (Qabs (- diff)) 1000 = Qlt_bool (Qabs diff) 1000).
  { destruct (Qlt_bool (Qabs diff) 1000) eqn:E.
    - apply Qlt_bool_true in E. apply Qlt_bool_true. now rewrite Qabs_opp.
    - apply Qlt_bool_false in E. apply Qlt_bool_false. now rewrite Qabs_opp. }
  rewrite Habs. destruct (Qlt_bool (Qabs diff) 1000) eqn:E; [reflexivity|].
  apply Qlt_bool_false in E.
  assert (Hbig : 1000 <= diff \/ diff <= -1000).
  { revert E. apply (Qabs_case diff); intros; lra. }
  destruct (Qgt_bool diff 0) eqn:E0; destruct (Qgt_bool (- diff) 0) eqn:E1;
    simpl; rewrite ?Qopp_opp; try reflexivity;
    repeat match goal with
           | H : Qgt_bool _ _ = true |- _ => apply Qgt_bool_true in H
           | H : Qgt_bool _ _ = false |- _ => apply Qgt_bool_false in H
           end; exfalso; lra.
Qed.

Lemma classify_action_deadband_witness :
  classify_action 1500.4 = BUY 1500
  /\ 1000 <= 1500.4
  /\ classify_action (-999.9) = HOLD.
Proof.
  destruct (classify_action_deadband 1500.4) as (_ & Hbuy & _).
  destruct (classify_action_deadband (-999.9)) as (Hhold & _).
  assert (E : classify_action 1500.4 = BUY 1500) by (vm_compute; reflexivity).
  split; [exact E|]. split; [exact (proj1 (Hbuy _ E))|].
  apply Hhold. vm_compute. reflexivity.
Defined.

(** ** One target and one row per instrument *)

Lemma set_fresh {V : Type} (k : string) (v : V) (d : Dict.t V) :
  ~ In k (Dict.keys d) -> Dict.set k v d = d ++ [(k, v)].
Proof.
  induction d as [|[k0 v0] r IH]; simpl; intro H; [reflexivity|].
  destruct (String.eqb k k0) eqn:E.
  - apply String.eqb_eq in E. subst. exfalso. apply H. now left.
  - rewrite IH; [reflexivity|]. intro Hin. apply H. now right.
Qed.

Lemma fold_set_fresh {V : Type} (f : string -> V) (ks : list string)
      (d : Dict.t V) :
  NoDup ks ->
  (forall k, In k ks -> ~ In k (Dict.keys d)) ->
  fold_left (fun acc k => Dict.set k (f k) acc) ks d
  = d ++ map (fun k => (k, f k)) ks.
Proof.
  revert d. induction ks as [|k ks IH]; intros d Hnd Hfresh; simpl.
  - now rewrite app_nil_r.
  - inversion Hnd as [|? ? Hnin Hnd']; subst.
    rewrite set_fresh by (apply Hfresh; now left).
    rewrite IH; [now rewrite <- app_assoc| exact Hnd' |].
    intros k' Hk' Hin. unfold Dict.keys in Hin. rewrite map_app in Hin.
    apply in_app_or in Hin. destruct Hin as [Hin|[<-|[]]].
    + apply (Hfresh k'); [now right | exact Hin].
    + contradiction.
Qed.

Lemma blended_targets_in_order (p : Inputs) :
  Dict.wf (etfs p) ->
  blended_targets p
  = map (fun etf => (etf, Dict.get_default etf 0 (core_targets p)
                          + tactical_term p etf))
        (Dict.keys (etfs p)).
Proof.
  intro Hwf. unfold blended_targets.
  rewrite (fold_set_fresh
             (fun etf => Dict.get_default etf 0 (core_targets p)
                         + tactical_term p etf)); auto.
Qed.

Lemma final_targets_keys (p : Inputs) :
  Dict.keys (final_targets p) = Dict.keys (blended_targets p).
Proof.
  unfold final_targets. destruct (Qgt_bool (sum_targets p) 1); [|reflexivity].
  unfold Dict.keys. rewrite map_map. apply map_ext. now intros [k v].
Qed.

Lemma output_ETF (p : Inputs) : map ETF (output p) = Dict.keys (final_targets p).
Proof.
  unfold output, Dict.keys. rewrite map_map. apply map_ext. now intros [k v].
Qed.

(** X5.  With [etfs] a dict (no key twice), every instrument gets exactly
    one final target and exactly one row of the report, in the order of
    [etfs], whether or not the turnover cap rewrote the rows; holdings under
    other keys (such as newCash) get no row. *)
Theorem one_row_per_instrument (p : Inputs) :
  Dict.wf (etfs p) ->
  Dict.keys (final_targets p) = Dict.keys (etfs p)
  /\ map ETF (output p) = Dict.keys (etfs p)
  /\ map ETF (final_output p) = Dict.keys (etfs p).
Proof.
  intro Hwf.
  assert (Hk : Dict.keys (final_targets p) = Dict.keys (etfs p)).
  { rewrite final_targets_keys, (blended_targets_in_order p Hwf).
    unfold Dict.keys at 1. rewrite map_map. simpl. apply map_id. }
  assert (Ho : map ETF (output p) = Dict.keys (etfs p))
    by (rewrite output_ETF; exact Hk).
  split; [exact Hk|]. split; [exact Ho|].
  unfold final_output, enforce_turnover.
  destruct (scaling_triggers _ _); [|exact Ho].
  rewrite map_map. simpl. exact Ho.
Qed.

Lemma one_row_per_instrument_witness :
  Dict.wf (etfs Shipped.no_data)
  /\ map ETF (final_output Shipped.no_data)
     = ["NIFTYBEES"; "BANKBEES"; "JUNIORBEES"; "MON100"; "GOLDBEES";
        "SILVERIETF"; "LIQUIDBEES"]%string.
Proof.
  assert (Hwf : Dict.wf (etfs Shipped.no_data)).
  { unfold Dict.wf. simpl.
    repeat (constructor; [simpl; intuition discriminate|]). constructor. }
  split; [exact Hwf|].
  rewrite (proj2 (proj2 (one_row_per_instrument _ Hwf))). reflexivity.
Defined.


(** ** The final weights as fractions *)

Lemma blended_targets_wf (p : Inputs) : Dict.wf (blended_targets p).
Proof.
  unfold blended_targets. apply fold_left_invariant.
  - intros d etf _ Hd. now apply set_wf.
  - constructor.
Qed.

Lemma blended_targets_entry (p : Inputs) (etf : string) (v : Q) :
  Dict.get etf (blended_targets p) = Some v ->
  In etf (Dict.keys (etfs p))
  /\ v = Dict.get_default etf 0 (core_targets p) + tactical_term p etf.
Proof.
  intro Hget.
  assert (Hin : In etf (Dict.keys (etfs p))).
  { assert (Hk : In etf (Dict.keys (blended_targets p)))
      by (apply get_keys; eauto).
    unfold blended_targets in Hk.
    apply (keys_fold_set
             (fun e => Dict.get_default e 0 (core_targets p)
                       + tactical_term p e)) in Hk.
    destruct Hk as [Hk|[]]. exact Hk. }
  split; [exact Hin|]. rewrite (blended_targets_get p etf Hin) in Hget.
  congruence.
Qed.

Lemma pysum_bounds_member (l : list Q) (v : Q) :
  (forall x, In x l -> 0 <= x) -> In v l -> v <= pysum l.
Proof.
  induction l as [|x l IH]; intros Hnn Hin; [contradiction|].
  rewrite pysum_cons.
  assert (0 <= x) by (apply Hnn; now left).
  assert (0 <= pysum l)
    by (apply pysum_nonneg; intros y Hy; apply Hnn; now right).
  destruct Hin as [->|Hin]; [lra|].
  assert (v <= pysum l) by (apply IH; [intros y Hy; apply Hnn; now right | exact Hin]).
  lra.
Qed.

Lemma tactical_term_nonneg (p : Inputs) (etf : string) :
  0 <= momentum_pct p -> 0 <= tactical_term p etf.
Proof.
  intro Hm. unfold tactical_term.
  destruct (is_overvalued (valuation_of p etf)); [lra|].
  unfold Dict.get_default.
  destruct (Dict.get etf (tactical_allocation p)) as [v|] eqn:E; [|lra].
  destruct (string_dec etf (tactical_target p)) as [->|Hne].
  - rewrite tactical_allocation_target in E. injection E as <-. exact Hm.
  - rewrite (tactical_allocation_other p etf v Hne E). lra.
Qed.

(** X7.  When the bucket targets, the within-bucket weights and
    momentum_pct are not negative, every final target weight is a fraction
    between 0 and 1. *)
Theorem final_targets_are_fractions (p : Inputs) :
  (forall bucket w, In (bucket, w) (bucket_targets p) -> 0 <= w) ->
  (forall bucket within etf w,
      Dict.get bucket (buffett_within_bucket_weights p) = Some within ->
      In (etf, w) within -> 0 <= w) ->
  0 <= momentum_pct p ->
  forall etf w, Dict.get etf (final_targets p) = Some w -> 0 <= w <= 1.
Proof.
  intros Hb Hw Hm.
  assert (Hentry : forall etf v,
             Dict.get etf (blended_targets p) = Some v -> 0 <= v).
  { intros etf v Hget. destruct (blended_targets_entry _ _ _ Hget) as [_ ->].
    pose proof (tactical_term_nonneg p etf Hm) as Ht.
    assert (0 <= Dict.get_default etf 0 (core_targets p)).
    { unfold Dict.get_default.
      destruct (Dict.get etf (core_targets p)) as [c|] eqn:Ec; [|lra].
      destruct (core_targets_product _ _ _ Ec)
        as (bucket & bw & within & w & H1 & H2 & H3 & ->).
      apply Qmult_le_0_compat; eauto. }
    lra. }
  assert (Hall : forall x, In x (Dict.values (blended_targets p)) -> 0 <= x).
  { intros x Hx. unfold Dict.values in Hx. apply in_map_iff in Hx.
    destruct Hx as ([k v] & <- & Hin). simpl.
    apply (Hentry k). apply In_get; [apply blended_targets_wf | exact Hin]. }
  intros etf w Hget. rewrite final_targets_get in Hget.
  assert (Hsum : forall v, Dict.get etf (blended_targets p) = Some v ->
                           0 <= v <= sum_targets p).
  { intros v Hv. split; [eapply Hentry; eauto|].
    apply pysum_bounds_member; [exact Hall|].
    unfold Dict.values. apply in_map_iff. exists (etf, v).
    split; [reflexivity | now apply get_In]. }
  destruct (Qgt_bool (sum_targets p) 1) eqn:E.
  - apply Qgt_bool_true in E.
    destruct (Dict.get etf (blended_targets p)) as [v|]; [|discriminate].
    injection Hget as <-. destruct (Hsum v eq_refl) as [H0 H1]. split.
    + apply Qle_shift_div_l; lra.
    + apply Qle_shift_div_r; lra.
  - apply Qgt_bool_false in E. destruct (Hsum w Hget). lra.
Qed.

Lemma final_targets_are_fractions_witness :
  exists w,
    Dict.get "GOLDBEES"%string (final_targets Shipped.with_metals_up) = Some w
    /\ 0 <= w <= 1.
Proof.
  destruct (Dict.get "GOLDBEES"%string (final_targets Shipped.with_metals_up))
    as [w|] eqn:E; [|vm_compute in E; discriminate].
  exists w. split; [reflexivity|].
  apply (final_targets_are_fractions Shipped.with_metals_up) with
    (etf := "GOLDBEES"%string); [| | |exact E].
  - intros bucket w0 Hin. simpl in Hin.
    repeat (destruct Hin as [Hin|Hin];
            [injection Hin as _ <-; vm_compute; discriminate|]).
    contradiction.
  - intros bucket within etf w0 Hget Hin.
    assert (Hm : In (bucket, within)
                    (buffett_within_bucket_weights Shipped.with_metals_up))
      by now apply get_In.
    simpl in Hm.
    repeat (destruct Hm as [Hm|Hm];
            [injection Hm as _ <-; simpl in Hin;
             repeat (destruct Hin as [Hin|Hin];
                     [injection Hin as _ <-; vm_compute; discriminate|]);
             contradiction|]).
    contradiction.
  - vm_compute. discriminate.
Defined.



(** X9.  The fallback writes to the key LIQUIDBEES whether or not it is one
    of [etfs].  When it is not, and no instrument is eligible, the tactical
    percentage reaches no instrument: every blended weight is the core
    weight alone. *)
Theorem fallback_lost_without_liquidbees (p : Inputs) :
  ~ In LIQUIDBEES (Dict.keys (etfs p)) ->
  (forall etf r, ~ eligible p etf r) ->
  Dict.get LIQUIDBEES (tactical_allocation p) = Some (momentum_pct p)
  /\ forall etf,
       In etf (Dict.keys (etfs p)) ->
       tactical_term p etf = 0
       /\ Dict.get etf (blended_targets p)
          = Some (Dict.get_default etf 0 (core_targets p) + 0).
Proof.
  intros Hnot Hnone. apply no_eligible_no_candidates in Hnone.
  assert (Ht : tactical_target p = LIQUIDBEES)
    by (unfold tactical_target; now rewrite Hnone).
  split; [rewrite <- Ht; apply tactical_allocation_target|].
  intros etf Hin.
  assert (Hne : etf <> tactical_target p) by (rewrite Ht; congruence).
  assert (Hz : tactical_term p etf = 0).
  { unfold tactical_term.
    destruct (is_overvalued (valuation_of p etf)); [reflexivity|].
    unfold Dict.get_default.
    destruct (Dict.get etf (tactical_allocation p)) as [v|] eqn:E; [|reflexivity].
    exact (tactical_allocation_other p etf v Hne E). }
  split; [exact Hz|]. now rewrite (blended_targets_get p etf Hin), Hz.
Qed.

Lemma fallback_lost_without_liquidbees_witness :
  ~ In LIQUIDBEES (Dict.keys (etfs Shipped.no_liquid))
  /\ Dict.get LIQUIDBEES (tactical_allocation Shipped.no_liquid) = Some 0.05
  /\ Dict.get "MON100"%string (blended_targets Shipped.no_liquid)
     = Some (0.10 * 1.0 + 0)
  /\ sum_targets Shipped.no_liquid == 0.80.
Proof.
  assert (Hnot : ~ In LIQUIDBEES (Dict.keys (etfs Shipped.no_liquid))).
  { simpl. intuition discriminate. }
  assert (Hnone : forall etf r, ~ eligible Shipped.no_liquid etf r)
    by (apply no_eligible_no_candidates; vm_compute; reflexivity).
  destruct (fallback_lost_without_liquidbees _ Hnot Hnone) as [Ht Hall].
  split; [exact Hnot|]. split; [exact Ht|]. split.
  - rewrite (proj2 (Hall "MON100"%string ltac:(simpl; tauto))). reflexivity.
  - vm_compute. reflexivity.
Defined.

(** ** Core targets, bucket by bucket *)

Lemma keys_app {V : Type} (d d' : Dict.t V) :
  Dict.keys (d ++ d') = Dict.keys d ++ Dict.keys d'.
Proof. unfold Dict.keys. apply map_app. Qed.

Lemma bucket_writes_keys (bucket_w : Q) (within ct : Dict.t Q) (e : string) :
  In e (Dict.keys (fold_left (fun ct' '(etf, w) =>
                                Dict.set etf (bucket_w * w) ct') within ct))
  <-> In e (Dict.keys within) \/ In e (Dict.keys ct).
Proof.
  revert ct. induction within as [|[etf w] within IH]; intro ct; simpl; [tauto|].
  rewrite IH, keys_set. fold (Dict.keys within). intuition.
Qed.

Lemma bucket_writes_fresh (bucket_w : Q) (within ct : Dict.t Q) :
  NoDup (Dict.keys within) ->
  (forall e, In e (Dict.keys within) -> ~ In e (Dict.keys ct)) ->
  fold_left (fun ct' '(etf, w) => Dict.set etf (bucket_w * w) ct') within ct
  = ct ++ map (fun '(etf, w) => (etf, bucket_w * w)) within.
Proof.
  revert ct. induction within as [|[etf w] within IH]; intros ct Hnd Hfresh; simpl.
  - now rewrite app_nil_r.
  - inversion Hnd as [|? ? Hnin Hnd']; subst.
    rewrite set_fresh by (apply Hfresh; now left).
    rewrite IH; [now rewrite <- app_assoc | exact Hnd' |].
    intros e He Hin. rewrite keys_app in Hin. apply in_app_or in Hin.
    destruct Hin as [Hin|[<-|[]]].
    + apply (Hfresh e); [now right | exact Hin].
    + contradiction.
Qed.

Lemma keys_bucket_writes (bucket_w : Q) (within : Dict.t Q) :
  Dict.keys (map (fun '(etf, w) => (etf, bucket_w * w)) within)
  = Dict.keys within.
Proof.
  unfold Dict.keys. rewrite map_map. apply map_ext. now intros [etf w].
Qed.

Lemma NoDup_app_disjoint {A : Type} (l l' : list A) :
  NoDup (l ++ l') -> forall a, In a l -> ~ In a l'.
Proof.
  induction l as [|x l IH]; simpl; intros Hnd a Hin; [contradiction|].
  inversion Hnd as [|? ? Hnin Hnd']; subst.
  destruct Hin as [->|Hin]; [|now apply IH].
  intro Ha. apply Hnin. apply in_or_app. now right.
Qed.

Lemma core_loop_keys (p : Inputs) (l : list (string * Q)) (ct : Dict.t Q) (e : string) :
  In e (Dict.keys (fold_left (core_step p) l ct))
  <-> In e (Dict.keys (flat_map (core_bucket_writes p) l)) \/ In e (Dict.keys ct).
Proof.
  revert ct. induction l as [|[bucket bucket_w] l IH]; intro ct; simpl; [tauto|].
  rewrite IH, keys_app, in_app_iff.
  destruct (Dict.get bucket (buffett_within_bucket_weights p)) as [within|];
    simpl; [|tauto].
  rewrite bucket_writes_keys, keys_bucket_writes. tauto.
Qed.

Lemma core_loop_fresh (p : Inputs) (l : list (string * Q)) (ct : Dict.t Q) :
  NoDup (Dict.keys (ct ++ flat_map (core_bucket_writes p) l)) ->
  fold_left (core_step p) l ct = ct ++ flat_map (core_bucket_writes p) l.
Proof.
  revert ct. induction l as [|[bucket bucket_w] l IH]; intros ct Hnd; simpl.
  - now rewrite app_nil_r.
  - simpl in Hnd.
    destruct (Dict.get bucket (buffett_within_bucket_weights p)) as [within|];
      simpl in *; [|now apply IH].
    rewrite app_assoc in Hnd. rewrite keys_app in Hnd.
    pose proof (NoDup_app_remove_r _ _ Hnd) as Hnd1.
    rewrite keys_app, keys_bucket_writes in Hnd1.
    rewrite bucket_writes_fresh.
    + rewrite IH; [now rewrite <- app_assoc|].
      now rewrite keys_app.
    + exact (NoDup_app_remove_l _ _ Hnd1).
    + intros e He Hin.
      exact (NoDup_app_disjoint _ _ Hnd1 e Hin He).
Qed.

Lemma core_targets_loop (p : Inputs) :
  core_targets p = fold_left (core_step p) (bucket_targets p) [].
Proof.
  unfold core_targets. f_equal.
Qed.

Lemma core_writes_flat (p : Inputs) :
  core_writes p = flat_map (core_bucket_writes p) (bucket_targets p).
Proof. reflexivity. Qed.

Lemma in_keys_iff {V : Type} (d : Dict.t V) (k : string) :
  In k (Dict.keys d) <-> exists v, In (k, v) d.
Proof.
  unfold Dict.keys. rewrite in_map_iff. split.
  - intros ([k' v] & <- & Hin). simpl. eauto.
  - intros (v & Hin). exists (k, v). auto.
Qed.

Lemma core_writes_keys (p : Inputs) (etf : string) :
  In etf (Dict.keys (core_writes p)) <->
  exists bucket bucket_w within,
    In (bucket, bucket_w) (bucket_targets p)
    /\ Dict.get bucket (buffett_within_bucket_weights p) = Some within
    /\ In etf (Dict.keys within).
Proof.
  unfold core_writes. rewrite in_keys_iff. split.
  - intros (v & Hin). apply in_flat_map in Hin.
    destruct Hin as ([bucket bucket_w] & Hb & Hin).
    destruct (Dict.get bucket (buffett_within_bucket_weights p))
      as [within|] eqn:E; [|contradiction].
    exists bucket, bucket_w, within. split; [exact Hb|]. split; [exact E|].
    apply in_map_iff in Hin. destruct Hin as ([e w] & Heq & Hin).
    injection Heq as -> _. apply in_keys_iff. eauto.
  - intros (bucket & bucket_w & within & Hb & E & Hin).
    apply in_keys_iff in Hin. destruct Hin as (w & Hin).
    exists (bucket_w * w). apply in_flat_map. exists (bucket, bucket_w).
    split; [exact Hb|]. rewrite E.
    apply in_map_iff. exists (etf, w). auto.
Qed.

(** X10.  An instrument has a core weight exactly when a bucket that has
    both a target and a within-bucket mapping lists it; a bucket with a
    target but no mapping is skipped and gives no instrument a weight. *)
Theorem core_targets_keys (p : Inputs) (etf : string) :
  In etf (Dict.keys (core_targets p)) <->
  exists bucket bucket_w within,
    In (bucket, bucket_w) (bucket_targets p)
    /\ Dict.get bucket (buffett_within_bucket_weights p) = Some within
    /\ In etf (Dict.keys within).
Proof.
  rewrite <- core_writes_keys, core_targets_loop, core_loop_keys.
  rewrite <- core_writes_flat. simpl. tauto.
Qed.

(** X11.  When no instrument is listed twice across the buckets, the core
    targets are the products bucket target x within-bucket weight, one per
    listed instrument, in the order of the buckets and of their listings. *)
Theorem core_targets_in_order (p : Inputs) :
  NoDup (Dict.keys (core_writes p)) -> core_targets p = core_writes p.
Proof.
  intro Hnd. rewrite core_targets_loop, core_loop_fresh; [reflexivity|].
  exact Hnd.
Qed.

Lemma core_targets_in_order_witness :
  core_targets Shipped.no_data
  = [("NIFTYBEES", 0.45 * 0.5); ("BANKBEES", 0.45 * 0.3);
     ("JUNIORBEES", 0.45 * 0.2); ("MON100", 0.10 * 1.0);
     ("GOLDBEES", 0.25 * 0.6); ("SILVERIETF", 0.25 * 0.4);
     ("LIQUIDBEES", 0.20 * 1.0)]%string.
Proof.
  rewrite core_targets_in_order; [reflexivity|].
  simpl. repeat (constructor; [simpl; intuition discriminate|]). constructor.
Defined.






(** ** The ranking of the candidates *)

(** X13.  Sorting the candidates loses and invents nothing and puts the
    largest six-month return first: the candidate list is a rearrangement of
    the scanned entries in which no entry has a larger return than one
    before it. *)
Theorem momentum_candidates_ranked (p : Inputs) :
  Permutation (scan_candidates (etf_metrics p)) (momentum_candidates p)
  /\ StronglySorted by_return_desc (momentum_candidates p).
Proof.
  split; [apply sort_desc_perm | apply sort_desc_sorted].
Qed.

(** X14.  LIQUIDBEES is never a momentum candidate, whatever its metrics, so
    it is the tactical target exactly when there is no candidate at all;
    every candidate is one of [etfs] and has a positive six-month return. *)
Theorem candidates_exclude_liquidbees (p : Inputs) :
  (forall r, ~ In (LIQUIDBEES, r) (momentum_candidates p))
  /\ (tactical_target p = LIQUIDBEES <-> momentum_candidates p = [])
  /\ (forall name r, In (name, r) (momentum_candidates p) ->
        In name (Dict.keys (etfs p)) /\ 0 < r).
Proof.
  assert (Hno : forall r, ~ In (LIQUIDBEES, r) (momentum_candidates p)).
  { intros r Hin. apply momentum_candidates_eligible in Hin.
    destruct Hin as (m & _ & Hne & _). now apply Hne. }
  split; [exact Hno|]. split.
  - unfold tactical_target.
    destruct (momentum_candidates p) as [|[top r] rest] eqn:E.
    + tauto.
    + split; [|discriminate]. intros ->. exfalso. apply (Hno r). now left.
  - intros name r Hin. apply momentum_candidates_eligible in Hin.
    destruct Hin as (m & Hget & _ & _ & _ & _ & Hpos).
    split; [|exact Hpos]. apply etf_metrics_keys, get_keys. eauto.
Qed.

Lemma candidates_exclude_liquidbees_witness :
  momentum_candidates Shipped.with_liquid_rich = []
  /\ tactical_target Shipped.with_liquid_rich = LIQUIDBEES
  /\ In "GOLDBEES"%string (Dict.keys (etfs Shipped.with_metals_up)).
Proof.
  destruct (candidates_exclude_liquidbees Shipped.with_liquid_rich)
    as (_ & Hiff & _).
  destruct (candidates_exclude_liquidbees Shipped.with_metals_up)
    as (_ & _ & Hall).
  assert (E : momentum_candidates Shipped.with_liquid_rich = [])
    by (vm_compute; reflexivity).
  split; [exact E|]. split; [exact (proj2 Hiff E)|].
  apply (Hall "GOLDBEES"%string 8). vm_compute. tauto.
Defined.

(** X15.  Ties go to the instrument scanned first: the tactical target is
    a candidate such that every candidate scanned before it has a strictly
    smaller six-month return. *)
Theorem ties_go_to_first_scanned (p : Inputs) (top : string) (r : Q)
        (rest : list (string * Q)) :
  momentum_candidates p = (top, r) :: rest ->
  tactical_target p = top
  /\ exists before after,
       scan_candidates (etf_metrics p) = before ++ (top, r) :: after
       /\ forall c, In c before -> snd c < r.
Proof.
  intro E. split; [unfold tactical_target; now rewrite E|].
  exact (sort_desc_head_first _ _ _ E).
Qed.

Lemma ties_go_to_first_scanned_witness :
  momentum_candidates Shipped.with_metals_tied
  = [("GOLDBEES"%string, 8); ("SILVERIETF"%string, 8)]
  /\ tactical_target Shipped.with_metals_tied = "GOLDBEES"%string
  /\ exists before after,
       scan_candidates (etf_metrics Shipped.with_metals_tied)
       = before ++ ("GOLDBEES"%string, 8) :: after
       /\ forall c, In c before -> snd c < 8.
Proof.
  assert (E : momentum_candidates Shipped.with_metals_tied
              = [("GOLDBEES"%string, 8); ("SILVERIETF"%string, 8)])
    by (vm_compute; reflexivity).
  split; [exact E|].
  exact (ties_go_to_first_scanned _ _ _ _ E).
Defined.

(** ** What the trades add up to *)





Lemma round_half_even_lower (x : Q) : x - (1 # 2) <= inject_Z (round_half_even x).
Proof.
  pose proof (round_half_even_error x) as H.
  apply Qabs_Qle_condition in H. lra.
Qed.

Lemma round_half_even_upper (x : Q) : inject_Z (round_half_even x) <= x + (1 # 2).
Proof.
  pose proof (round_half_even_error x) as H.
  apply Qabs_Qle_condition in H. lra.
Qed.

Lemma inject_Z_gap (a b : Z) (k : Z) :
  inject_Z k - 1 < inject_Z a - inject_Z b -> (k <= a - b)%Z.
Proof.
  intro H.
  assert (H' : inject_Z (k - 1) < inject_Z (a - b)).
  { unfold Zminus. rewrite !inject_Z_plus, !inject_Z_opp.
    change (inject_Z 1) with 1. lra. }
  rewrite <- Zlt_Qlt in H'. lia.
Qed.

(** The rows of the final report: rows of step 4, or their scaled copies. *)
Lemma final_output_rows (p : Inputs) (o : Row) :
  In o (final_output p) ->
  (exists etf w, In (etf, w) (final_targets p) /\ o = size_row p etf w)
  \/ (exists scale o0, o = scale_row scale o0).
Proof.
  unfold final_output, enforce_turnover.
  destruct (scaling_triggers _ _); intro Hin.
  - right. apply in_map_iff in Hin. destruct Hin as (o0 & <- & _). eauto.
  - left. unfold output in Hin. apply in_map_iff in Hin.
    destruct Hin as ([etf w] & <- & Hin). eauto.
Qed.

Lemma size_row_consistent (p : Inputs) (etf : string) (w : Q) (n : Z) :
  (Action_shown (size_row p etf w) = BUY n ->
   (999 <= Target_rs (size_row p etf w) - Current_rs (size_row p etf w))%Z)
  /\ (Action_shown (size_row p etf w) = SELL n ->
      (999 <= Current_rs (size_row p etf w) - Target_rs (size_row p etf w))%Z).
Proof.
  simpl.
  destruct (classify_action_cases (sized_diff p etf w)) as (_ & Hb & Hs).
  pose proof (round_half_even_lower (total_value p * w)).
  pose proof (round_half_even_upper (total_value p * w)).
  pose proof (round_half_even_lower (Dict.get_default etf 0 (current_holdings p))).
  pose proof (round_half_even_upper (Dict.get_default etf 0 (current_holdings p))).
  split; intro E.
  - destruct (Hb n E) as (Hd & _). unfold sized_diff in Hd.
    apply inject_Z_gap. change (inject_Z 999) with 999. lra.
  - destruct (Hs n E) as (Hd & _). unfold sized_diff in Hd.
    apply inject_Z_gap. change (inject_Z 999) with 999. lra.
Qed.

Lemma scale_row_consistent (scale : Q) (o : Row) (n : Z) :
  (Action_shown (scale_row scale o) = BUY n ->
   (999 <= Target_rs (scale_row scale o) - Current_rs (scale_row scale o))%Z)
  /\ (Action_shown (scale_row scale o) = SELL n ->
      (999 <= Current_rs (scale_row scale o) - Target_rs (scale_row scale o))%Z).
Proof.
  simpl.
  destruct (classify_action_cases (diff_scaled scale o)) as (_ & Hb & Hs).
  pose proof (round_half_even_lower
                (inject_Z (Current_rs o) + diff_scaled scale o)).
  pose proof (round_half_even_upper
                (inject_Z (Current_rs o) + diff_scaled scale o)).
  split; intro E.
  - destruct (Hb n E) as (Hd & _).
    apply inject_Z_gap. change (inject_Z 999) with 999. lra.
  - destruct (Hs n E) as (Hd & _).
    apply inject_Z_gap. change (inject_Z 999) with 999. lra.
Qed.

(** X17.  In the final report a BUY row always shows a target above the
    current amount and a SELL row a target below it, by at least 999 rupees,
    whether or not the turnover cap rescaled the row. *)
Theorem report_rows_consistent (p : Inputs) (o : Row) (n : Z) :
  In o (final_output p) ->
  (Action_shown o = BUY n -> (999 <= Target_rs o - Current_rs o)%Z)
  /\ (Action_shown o = SELL n -> (999 <= Current_rs o - Target_rs o)%Z).
Proof.
  intro Hin.
  destruct (final_output_rows p o Hin) as [(etf & w & _ & ->)|(scale & o0 & ->)].
  - apply size_row_consistent.
  - apply scale_row_consistent.
Qed.

Lemma report_rows_consistent_witness :
  exists o,
    In o (final_output Shipped.no_data)
    /\ ETF o = LIQUIDBEES
    /\ Action_shown o = BUY 18859
    /\ (999 <= Target_rs o - Current_rs o)%Z.
Proof.
  set (o := scale_row (turnover_limit Shipped.no_data
                       / total_proposed_turnover (output Shipped.no_data))
                      (size_row Shipped.no_data LIQUIDBEES
                         ((0.20 * 1.0 + 0.05) / sum_targets Shipped.no_data))).
  assert (Hin : In o (final_output Shipped.no_data)).
  { vm_compute. repeat (try (left; reflexivity); right). }
  assert (E : Action_shown o = BUY 18859) by (vm_compute; reflexivity).
  exists o. split; [exact Hin|]. split; [reflexivity|]. split; [exact E|].
  exact (proj1 (report_rows_consistent _ _ _ Hin) E).
Defined.

(** ** The totals of step 8 *)

Lemma totals_within_turnover (out : list Row) :
  (forall o, In o out ->
     (is_buy (Action_shown o) = true -> 0 <= parsed_diff o)
     /\ (is_sell (Action_shown o) = true -> parsed_diff o <= 0)) ->
  0 <= buy_amounts out
  /\ 0 <= sell_amounts out
  /\ buy_amounts out + sell_amounts out <= total_proposed_turnover out.
Proof.
  unfold buy_amounts, sell_amounts, total_proposed_turnover.
  induction out as [|o out IH]; intro H.
  - simpl. rewrite pysum_nil. lra.
  - destruct IH as (Hb & Hs & Ht); [intros o' Ho'; apply H; now right|].
    destruct (H o (or_introl eq_refl)) as [Hbuy Hsell].
    pose proof (Qabs_nonneg (parsed_diff o)) as Hab.
    pose proof (Qle_Qabs (parsed_diff o)) as Hle.
    pose proof (Qle_Qabs (- parsed_diff o)) as Hle'.
    rewrite Qabs_opp in Hle'.
    simpl. rewrite pysum_cons.
    destruct (Action_shown o) eqn:Ea; simpl in *; rewrite ?pysum_cons.
    + lra.
    + specialize (Hbuy eq_refl). fold (parsed_diff o). lra.
    + specialize (Hsell eq_refl).
      assert (inject_Z (Current_rs o) - inject_Z (Target_rs o)
              == - parsed_diff o) by (unfold parsed_diff; ring).
      lra.
Qed.

(** X18.  The totals printed at the end are never negative and together
    never exceed the turnover measured on the final report; the difference is
    what the HOLD rows would have traded. *)
Theorem printed_totals_within_turnover (p : Inputs) :
  0 <= buy_amounts (final_output p)
  /\ 0 <= sell_amounts (final_output p)
  /\ buy_amounts (final_output p) + sell_amounts (final_output p)
     <= total_proposed_turnover (final_output p).
Proof.
  apply totals_within_turnover. intros o Hin.
  assert (Hrows : forall n,
             (Action_shown o = BUY n -> (999 <= Target_rs o - Current_rs o)%Z)
             /\ (Action_shown o = SELL n ->
                 (999 <= Current_rs o - Target_rs o)%Z)).
  { intro n.
    destruct (final_output_rows p o Hin) as [(etf & w & _ & ->)|(scale & o0 & ->)].
    - apply size_row_consistent.
    - apply scale_row_consistent. }
  unfold parsed_diff. split; intro E.
  - destruct (Action_shown o) as [|n|n] eqn:Ea; try discriminate.
    pose proof (proj1 (Hrows n) eq_refl) as Hz.
    assert (Target_rs o >= Current_rs o)%Z by lia.
    assert (inject_Z (Current_rs o) <= inject_Z (Target_rs o))
      by (rewrite <- Zle_Qle; lia).
    lra.
  - destruct (Action_shown o) as [|n|n] eqn:Ea; try discriminate.
    pose proof (proj2 (Hrows n) eq_refl) as Hz.
    assert (inject_Z (Target_rs o) <= inject_Z (Current_rs o))
      by (rewrite <- Zle_Qle; lia).
    lra.
Qed.

(** ** What the cap does to a row *)

Lemma scale_in_closed_unit_interval (limit : Q) (out : list Row) :
  scaling_triggers limit out = true -> 0 <= limit ->
  0 <= limit / total_proposed_turnover out
  /\ limit / total_proposed_turnover out < 1.
Proof.
  intros Ht Hpos. apply scaling_triggers_true in Ht. destruct Ht as [Hgt Htp].
  split.
  - apply Qle_shift_div_l; [exact Htp | lra].
  - apply Qlt_shift_div_r; [exact Htp | lra].
Qed.

Lemma scaled_between (scale d : Q) :
  0 <= scale -> scale < 1 ->
  (0 <= d -> 0 <= d * scale <= d) /\ (d <= 0 -> d <= d * scale <= 0).
Proof.
  intros H0 H1. split; intro Hd.
  - assert (0 <= d * scale) by (apply Qmult_le_0_compat; lra).
    assert (0 <= d * (1 - scale)) by (apply Qmult_le_0_compat; lra).
    lra.
  - assert (0 <= (- d) * scale) by (apply Qmult_le_0_compat; lra).
    assert (0 <= (- d) * (1 - scale)) by (apply Qmult_le_0_compat; lra).
    lra.
Qed.

(** X19.  When the cap scales the trades under a limit that is not
    negative, the new target of every row lies between its current amount
    and its old target: the cap shortens a trade and never overshoots or
    reverses it. *)
Theorem capped_target_between (limit : Q) (out : list Row) (o : Row) :
  scaling_triggers limit out = true ->
  0 <= limit ->
  ((Current_rs o <= Target_rs o)%Z ->
   (Current_rs o
    <= Target_rs (scale_row (limit / total_proposed_turnover out) o)
    <= Target_rs o)%Z)
  /\ ((Target_rs o <= Current_rs o)%Z ->
      (Target_rs o
       <= Target_rs (scale_row (limit / total_proposed_turnover out) o)
       <= Current_rs o)%Z).
Proof.
  intros Ht Hlim.
  destruct (scale_in_closed_unit_interval _ _ Ht Hlim) as [H0 H1].
  set (scale := limit / total_proposed_turnover out) in *.
  destruct (scaled_between scale (parsed_diff o) H0 H1) as [Hup Hdown].
  assert (Hlow : forall x, inject_Z (Current_rs o) <= x ->
                           (Current_rs o <= round_half_even x)%Z).
  { intros x Hx. pose proof (round_half_even_monotone _ _ Hx) as M.
    now rewrite round_half_even_inject in M. }
  assert (Hhigh : forall x, x <= inject_Z (Current_rs o) ->
                            (round_half_even x <= Current_rs o)%Z).
  { intros x Hx. pose proof (round_half_even_monotone _ _ Hx) as M.
    now rewrite round_half_even_inject in M. }
  assert (Tlow : forall x, inject_Z (Target_rs o) <= x ->
                           (Target_rs o <= round_half_even x)%Z).
  { intros x Hx. pose proof (round_half_even_monotone _ _ Hx) as M.
    now rewrite round_half_even_inject in M. }
  assert (Thigh : forall x, x <= inject_Z (Target_rs o) ->
                            (round_half_even x <= Target_rs o)%Z).
  { intros x Hx. pose proof (round_half_even_monotone _ _ Hx) as M.
    now rewrite round_half_even_inject in M. }
  simpl. unfold diff_scaled.
  split; intro Hle; rewrite Zle_Qle in Hle.
  - destruct Hup as [Ha Hb]; [unfold parsed_diff; lra|].
    split; [apply Hlow | apply Thigh]; unfold parsed_diff in *; lra.
  - destruct Hdown as [Ha Hb]; [unfold parsed_diff; lra|].
    split; [apply Tlow | apply Hhigh]; unfold parsed_diff in *; lra.
Qed.

Lemma capped_target_between_witness :
  let o := size_row Shipped.no_data LIQUIDBEES
                    ((0.20 * 1.0 + 0.05) / sum_targets Shipped.no_data) in
  let scale := turnover_limit Shipped.no_data
               / total_proposed_turnover (output Shipped.no_data) in
  Current_rs o = 0%Z /\ Target_rs o = 82686%Z
  /\ Target_rs (scale_row scale o) = 18859%Z
  /\ (Current_rs o <= Target_rs (scale_row scale o) <= Target_rs o)%Z.
Proof.
  cbv zeta.
  assert (Ht : scaling_triggers (turnover_limit Shipped.no_data)
                                (output Shipped.no_data) = true)
    by (vm_compute; reflexivity).
  assert (Hlim : 0 <= turnover_limit Shipped.no_data)
    by (vm_compute; discriminate).
  repeat (split; [vm_compute; reflexivity|]).
  apply (proj1 (capped_target_between _ _ _ Ht Hlim)).
  vm_compute. discriminate.
Defined.

Lemma Qabs_Qabs_diff (x y : Q) : Qabs (Qabs x - Qabs y) <= Qabs (x - y).
Proof.
  pose proof (Qle_Qabs (x - y)) as H1.
  pose proof (Qle_Qabs (y - x)) as H2. rewrite (Qabs_Qminus y x) in H2.
  apply Qabs_Qle_condition.
  apply (Qabs_case x); intro Hx; apply (Qabs_case y); intro Hy; lra.
Qed.

Lemma pysum_pointwise_half {A : Type} (f g : A -> Q) (l : list A) :
  (forall a, In a l -> Qabs (f a - g a) <= 1 # 2) ->
  Qabs (pysum (map f l) - pysum (map g l))
  <= inject_Z (Z.of_nat (List.length l)) * (1 # 2).
Proof.
  induction l as [|a l IH]; intro H.
  - apply Qabs_Qle_condition. vm_compute. split; discriminate.
  - assert (Ha : Qabs (f a - g a) <= 1 # 2) by (apply H; now left).
    assert (Hl : Qabs (pysum (map f l) - pysum (map g l))
                 <= inject_Z (Z.of_nat (List.length l)) * (1 # 2)).
    { apply IH. intros b Hb. apply H. now right. }
    apply Qabs_Qle_condition in Ha. apply Qabs_Qle_condition in Hl.
    apply Qabs_Qle_condition.
    change (List.length (a :: l)) with (S (List.length l)).
    rewrite Nat2Z.inj_succ. unfold Z.succ. rewrite inject_Z_plus.
    change (inject_Z 1) with 1.
    simpl map. rewrite !pysum_cons. lra.
Qed.

(** X20.  After the cap has scaled the trades under a limit that is not
    negative, the turnover of the report it leaves (measured from the
    whole-rupee targets it wrote) is within half a rupee per row of the
    limit: rounding is all that can take it above. *)
Theorem capped_turnover_near_limit (limit : Q) (out : list Row) :
  scaling_triggers limit out = true ->
  0 <= limit ->
  Qabs (total_proposed_turnover (enforce_turnover limit out) - limit)
  <= inject_Z (Z.of_nat (List.length out)) * (1 # 2).
Proof.
  intros Ht Hlim.
  pose proof (scaled_turnover_sum _ _ Ht Hlim) as Hsum.
  rewrite (enforce_turnover_triggered _ _ Ht).
  rewrite total_proposed_turnover_scaled, <- Hsum.
  apply pysum_pointwise_half. intros o _.
  eapply Qle_trans; [apply Qabs_Qabs_diff|].
  pose proof (round_half_even_error
                (inject_Z (Current_rs o)
                 + diff_scaled (limit / total_proposed_turnover out) o)) as H.
  apply Qabs_Qle_condition in H. apply Qabs_Qle_condition. lra.
Qed.

Lemma capped_turnover_near_limit_witness :
  let p := Shipped.inputs (Shipped.holdings_with_cash 131587)
                          (fun _ => None) in
  total_proposed_turnover (final_output p) - turnover_limit p == 2
  /\ Qabs (total_proposed_turnover (final_output p) - turnover_limit p)
     <= inject_Z (Z.of_nat (List.length (output p))) * (1 # 2).
Proof.
  cbv zeta. split; [vm_compute; reflexivity|].
  apply capped_turnover_near_limit; vm_compute; [reflexivity | discriminate].
Defined.

Lemma parsed_diff_of_hold (p : Inputs) (etf : string) (w : Q) :
  Action_shown (size_row p etf w) = HOLD ->
  Qabs (parsed_diff (size_row p etf w)) <= 1000.
Proof.
  intro E.
  change (Action_shown (size_row p etf w))
    with (classify_action (sized_diff p etf w)) in E.
  apply (proj1 (proj1 (classify_action_cases _))) in E.
  change (parsed_diff (size_row p etf w))
    with (inject_Z (round_half_even (total_value p * w))
          - inject_Z (round_half_even
                        (Dict.get_default etf 0 (current_holdings p)))).
  unfold sized_diff in E.
  pose proof (round_half_even_lower (total_value p * w)).
  pose proof (round_half_even_upper (total_value p * w)).
  pose proof (round_half_even_lower (Dict.get_default etf 0 (current_holdings p))).
  pose proof (round_half_even_upper (Dict.get_default etf 0 (current_holdings p))).
  set (T := round_half_even (total_value p * w)) in *.
  set (C := round_half_even (Dict.get_default etf 0 (current_holdings p))) in *.
  assert (Hq : Qabs (total_value p * w
                     - Dict.get_default etf 0 (current_holdings p)) < 1000)
    by exact E.
  assert (Hb : -1000 < total_value p * w
                       - Dict.get_default etf 0 (current_holdings p) < 1000).
  { revert Hq. apply Qabs_case; intros; lra. }
  assert (Hz : (-1000 <= T - C <= 1000)%Z).
  { split.
    - apply (inject_Z_gap T C (-1000)). change (inject_Z (-1000)) with (-1000). lra.
    - assert (-1000 <= C - T)%Z; [|lia].
      apply (inject_Z_gap C T (-1000)). change (inject_Z (-1000)) with (-1000). lra. }
  assert (Hle : inject_Z (-1000) <= inject_Z (T - C) <= inject_Z 1000)
    by (rewrite <- !Zle_Qle; lia).
  unfold Zminus in Hle. rewrite inject_Z_plus, inject_Z_opp in Hle.
  change (inject_Z (-1000)) with (-1000) in Hle.
  change (inject_Z 1000) with 1000 in Hle.
  apply Qabs_Qle_condition. lra.
Qed.

Lemma scaled_hold (scale : Q) (o : Row) :
  0 <= scale -> scale < 1 ->
  Qabs (parsed_diff o) <= 1000 ->
  Action_shown (scale_row scale o) = HOLD.
Proof.
  intros H0 H1 Hd.
  change (Action_shown (scale_row scale o))
    with (classify_action (diff_scaled scale o)).
  apply (proj1 (classify_action_cases _)).
  unfold diff_scaled. rewrite Qabs_Qmult, (Qabs_pos scale) by exact H0.
  pose proof (Qabs_nonneg (parsed_diff o)) as Hn.
  assert (0 <= (1000 - Qabs (parsed_diff o)) * scale)
    by (apply Qmult_le_0_compat; lra).
  lra.
Qed.

Lemma Forall2_map_same {A B : Type} (R : A -> B -> Prop) (f : A -> B)
      (l : list A) :
  (forall a, In a l -> R a (f a)) -> Forall2 R l (map f l).
Proof.
  induction l as [|a l IH]; intro H; simpl; constructor.
  - apply H. now left.
  - apply IH. intros b Hb. apply H. now right.
Qed.

(** X21.  Under a turnover limit that is not negative the cap never turns a
    HOLD into a trade: row by row, what step 4 labelled HOLD is still HOLD
    in the final report. *)
Theorem hold_survives_cap (p : Inputs) :
  0 <= turnover_limit p ->
  Forall2 (fun o o' => Action_shown o = HOLD -> Action_shown o' = HOLD)
          (output p) (final_output p).
Proof.
  intro Hlim. unfold final_output, enforce_turnover.
  destruct (scaling_triggers (turnover_limit p) (output p)) eqn:Ht.
  - destruct (scale_in_closed_unit_interval _ _ Ht Hlim) as [H0 H1].
    apply Forall2_map_same. intros o Hin Ho.
    unfold output in Hin. apply in_map_iff in Hin.
    destruct Hin as ([etf w] & <- & _).
    apply scaled_hold; [exact H0 | exact H1 | now apply parsed_diff_of_hold].
  - rewrite <- (map_id (output p)) at 2. apply Forall2_map_same. auto.
Qed.

Lemma hold_survives_cap_witness :
  let p := Shipped.inputs
             (Dict.set "JUNIORBEES"%string 31500 Shipped.current_holdings)
             (fun _ => None) in
  0 <= turnover_limit p
  /\ map Action_shown (output p)
     = [SELL 21909; SELL 54257; HOLD; BUY 25414; BUY 54112; BUY 36074;
        BUY 90186]
  /\ map Action_shown (final_output p)
     = [SELL 5866; SELL 14528; HOLD; BUY 6805; BUY 14489; BUY 9659;
        BUY 24149]
  /\ Forall2 (fun o o' => Action_shown o = HOLD -> Action_shown o' = HOLD)
             (output p) (final_output p).
Proof.
  cbv zeta.
  assert (Hlim : 0 <= turnover_limit
                        (Shipped.inputs
                           (Dict.set "JUNIORBEES"%string 31500
                                     Shipped.current_holdings)
                           (fun _ => None)))
    by (vm_compute; discriminate).
  split; [exact Hlim|].
  split; [vm_compute; reflexivity|]. split; [vm_compute; reflexivity|].
  exact (hold_survives_cap _ Hlim).
Defined.

(** ** How much weight is handed out *)






(** ** Metrics from a price history *)


Lemma tail_rows_In (n : nat) (l : list Q) (x : Q) :
  In x (tail_rows n l) -> In x l.
Proof.
  unfold tail_rows. intro H.
  rewrite <- (firstn_skipn (List.length l - n) l). apply in_or_app. now right.
Qed.

Lemma tail_rows_length (n : nat) (l : list Q) :
  List.length (tail_rows n l) = Nat.min n (List.length l).
Proof. unfold tail_rows. rewrite length_skipn. lia. Qed.

Lemma pysum_lower (a : Q) (l : list Q) :
  (forall x, In x l -> a <= x) ->
  inject_Z (Z.of_nat (List.length l)) * a <= pysum l.
Proof.
  induction l as [|x l IH]; intro H.
  - change (inject_Z (Z.of_nat (List.length (@nil Q)))) with 0.
    rewrite pysum_nil. lra.
  - change (List.length (x :: l)) with (S (List.length l)).
    rewrite Nat2Z.inj_succ. unfold Z.succ. rewrite inject_Z_plus.
    change (inject_Z 1) with 1. rewrite pysum_cons.
    rewrite Qmult_plus_distr_l, Qmult_1_l.
    assert (a <= x) by (apply H; now left).
    assert (inject_Z (Z.of_nat (List.length l)) * a <= pysum l)
      by (apply IH; intros y Hy; apply H; now right).
    lra.
Qed.

Lemma pysum_upper (b : Q) (l : list Q) :
  (forall x, In x l -> x <= b) ->
  pysum l <= inject_Z (Z.of_nat (List.length l)) * b.
Proof.
  induction l as [|x l IH]; intro H.
  - change (inject_Z (Z.of_nat (List.length (@nil Q)))) with 0.
    rewrite pysum_nil. lra.
  - change (List.length (x :: l)) with (S (List.length l)).
    rewrite Nat2Z.inj_succ. unfold Z.succ. rewrite inject_Z_plus.
    change (inject_Z 1) with 1. rewrite pysum_cons.
    rewrite Qmult_plus_distr_l, Qmult_1_l.
    assert (x <= b) by (apply H; now left).
    assert (pysum l <= inject_Z (Z.of_nat (List.length l)) * b)
      by (apply IH; intros y Hy; apply H; now right).
    lra.
Qed.

Lemma mean_bounds (a b : Q) (l : list Q) :
  l <> [] ->
  (forall x, In x l -> a <= x <= b) ->
  a <= mean l <= b.
Proof.
  intros Hne H. unfold mean.
  assert (Hn : 0 < inject_Z (Z.of_nat (List.length l))).
  { destruct l; [congruence|]. simpl List.length.
    change 0 with (inject_Z 0). rewrite <- Zlt_Qlt. lia. }
  pose proof (pysum_lower a l (fun x Hx => proj1 (H x Hx))) as Hlo.
  pose proof (pysum_upper b l (fun x Hx => proj2 (H x Hx))) as Hhi.
  split.
  - apply Qle_shift_div_l; [exact Hn|]. lra.
  - apply Qle_shift_div_r; [exact Hn|]. lra.
Qed.

Lemma fetch_etf_metrics_Some (closes : list Q) (f : Fetched) :
  fetch_etf_metrics closes = Some f ->
  closes <> []
  /\ iloc_back 1 closes = Some (fetched_price f)
  /\ fetched_avg1y f = mean (tail_rows 252 closes)
  /\ fetched_ma200 f
     = (if (200 <=? List.length closes)%nat
        then Some (mean (tail_rows 200 closes)) else None)
  /\ fetched_r6m f
     = (if (130 <=? List.length closes)%nat
        then match iloc_back 126 closes with
             | Some c => Some ((fetched_price f - c) / c * 100)
             | None => None
             end
        else None).
Proof.
  unfold fetch_etf_metrics.
  destruct (iloc_back 1 closes) as [latest|] eqn:E; [|discriminate].
  intros [= <-]. simpl. repeat split; try reflexivity.
  intros ->. discriminate.
Qed.

Lemma latest_in_tail (n : nat) (closes : list Q) (x : Q) :
  (1 <= n)%nat -> iloc_back 1 closes = Some x -> In x (tail_rows n closes).
Proof.
  unfold iloc_back, tail_rows. intros Hn H.
  assert (Hlen : (List.length closes - 1 < List.length closes)%nat)
    by (apply nth_error_Some; congruence).
  apply (nth_error_In _ (List.length closes - 1 - (List.length closes - n))).
  rewrite nth_error_skipn. rewrite <- H. f_equal. lia.
Qed.

(** X23.  An instrument whose closes of the last 252 rows all lie between a
    and b, with b no more than 20% above a and a no more than 10% below b,
    is valued Fair. *)
Theorem steady_prices_are_fair (closes : list Q) (f : Fetched) (a b : Q) :
  fetch_etf_metrics closes = Some f ->
  (forall x, In x (tail_rows 252 closes) -> a <= x <= b) ->
  b <= a * 1.2 ->
  b * 0.9 <= a ->
  classify_valuation (fetched_price f) (fetched_avg1y f) = Fair.
Proof.
  intros Hf Hrange Hhi Hlo.
  destruct (fetch_etf_metrics_Some _ _ Hf) as (Hne & Hlast & Havg & _).
  assert (Hin : In (fetched_price f) (tail_rows 252 closes))
    by (apply latest_in_tail; [lia | exact Hlast]).
  assert (Hmean : a <= fetched_avg1y f <= b).
  { rewrite Havg. apply mean_bounds; [|exact Hrange].
    intro E. rewrite E in Hin. contradiction. }
  destruct (Hrange _ Hin) as [Hpa Hpb].
  unfold classify_valuation.
  replace (Qgt_bool (fetched_price f) (fetched_avg1y f * 1.2)) with false
    by (symmetry; apply Qgt_bool_false; lra).
  replace (Qlt_bool (fetched_price f) (fetched_avg1y f * 0.9)) with false
    by (symmetry; apply Qlt_bool_false; lra).
  reflexivity.
Qed.

Lemma steady_prices_are_fair_witness :
  exists f,
    fetch_etf_metrics (repeat 100 250 ++ [110; 105]) = Some f
    /\ fetched_price f = 105
    /\ classify_valuation (fetched_price f) (fetched_avg1y f) = Fair.
Proof.
  destruct (fetch_etf_metrics (repeat 100 250 ++ [110; 105])) as [f|] eqn:E;
    [|vm_compute in E; discriminate].
  exists f. split; [reflexivity|]. split.
  - vm_compute in E. injection E as <-. reflexivity.
  - apply (steady_prices_are_fair _ f 100 110 E).
    + intros x Hx. apply tail_rows_In in Hx. apply in_app_or in Hx.
      destruct Hx as [Hx|[<-|[<-|[]]]].
      * apply repeat_spec in Hx. subst. split; vm_compute; discriminate.
      * split; vm_compute; discriminate.
      * split; vm_compute; discriminate.
    + vm_compute. discriminate.
    + vm_compute. discriminate.
Defined.





